(** * Discretisation of renewal-type integral equations

    A shallow embedding of the two solvers of
    [notebooks/Discretisation_of_integral_equations.ipynb]:

    - Algorithm 1: the double loop filling [fhat] row by row, whose diagonal
      is [f_loop];
    - Algorithm 2: the single loop filling [F] column by column from the
      precomputed matrices [H] and [L], whose diagonal is [f_vec].

    Floating-point numbers are replaced by exact rationals ([Qc]); numpy
    arrays are dense lists (of lists); every numpy operation that can raise
    (indexing out of bounds, shapes that do not broadcast) is modelled in a
    small exception monad.  Step counts are natural numbers. *)

From Stdlib Require Import QArith Qcanon.
From stdpp Require Import base decidable option numbers list.

(** ** Exceptions *)

Inductive exn : Set :=
  | ZeroDivisionError
  | IndexError
  | ValueError.

Inductive result (A : Type) : Type :=
  | Ok (a : A)
  | Raise (e : exn).
Arguments Ok {A} a.
Arguments Raise {A} e.

#[global] Instance result_ret : MRet result := λ A a, Ok a.
#[global] Instance result_bind : MBind result := λ A B f m,
  match m with
  | Ok a => f a
  | Raise e => Raise e
  end.

(** [for i in idx: s = body(i, s)] *)
Fixpoint for_each {S : Type} (body : nat → S → result S) (idx : list nat) (s : S)
    : result S :=
  match idx with
  | [] => Ok s
  | i :: rest => s' ← body i s; for_each body rest s'
  end.

(** ** Numbers *)

#[global] Instance Qc_inhabited : Inhabited Qc := populate 0%Qc.

(** An integer grid index used in floating-point arithmetic. *)
Definition Qn (n : nat) : Qc := Qc_of_Z (Z.of_nat n).

(** ** The fragment of numpy (and scipy.linalg) the notebook uses *)

Module np.

Abbreviation vector := (list Qc).
Abbreviation matrix := (list (list Qc)).

Definition nrows {A} (M : list (list A)) : nat := length M.
Definition ncols {A} (M : list (list A)) : nat :=
  match M with
  | [] => 0
  | row :: _ => length row
  end.
Definition shape {A} (M : list (list A)) : nat * nat := (nrows M, ncols M).

(** The arrays whose entry [k] is [f k], and whose entry [n, i] is [f n i]. *)
Definition mk_vector {A} (m : nat) (f : nat → A) : list A := f <$> seq 0 m.
Definition mk_matrix {A} (r c : nat) (f : nat → nat → A) : list (list A) :=
  mk_vector r (λ n, mk_vector c (f n)).

(** [M[n, i]] where it is known to be in bounds. *)
Definition entry `{Inhabited A} (M : list (list A)) (n i : nat) : A := (M !!! n) !!! i.
Arguments entry : simpl never.

(** A dense [r] by [c] array. *)
Definition is_matrix {A} (r c : nat) (M : list (list A)) : Prop :=
  length M = r ∧ Forall (λ row, length row = c) M.

(** [np.zeros(shape = (r, c))] *)
Definition zeros (r c : nat) : matrix := replicate r (replicate c 0%Qc).

(** [np.arange(a, b)] *)
Definition arange (a b : nat) : list nat := seq a (b - a).

(** [range(n)] *)
Definition range (n : nat) : list nat := seq 0 n.

(** [np.tile(v, (r, 1))] *)
Definition tile {A} (v : list A) (r : nat) : list (list A) := replicate r v.

(** [np.transpose(M)] *)
Definition transpose `{Inhabited A} (M : list (list A)) : list (list A) :=
  mk_matrix (ncols M) (nrows M) (λ j n, entry M n j).

(** [np.flip(v)] *)
Definition flip {A} (v : list A) : list A := reverse v.

(** [scipy.linalg.toeplitz(c)] for a real first column [c]. *)
Definition toeplitz `{Inhabited A} (c : list A) : list (list A) :=
  mk_matrix (length c) (length c)
    (λ n i, c !!! (if decide (i ≤ n) then n - i else i - n)).

(** [d * M] for a float [d] and an integer array [M]. *)
Definition scale (d : Qc) (M : list (list nat)) : matrix :=
  (λ row : list nat, (λ k, d * Qn k)%Qc <$> row) <$> M.

(** [d * v] for a float [d] and an integer vector [v]. *)
Definition scale1 (d : Qc) (v : list nat) : vector := (λ k, d * Qn k)%Qc <$> v.

(** [v * d] and [M * d] for a float [d]. *)
Definition mul_scalar1 (v : vector) (d : Qc) : vector := (λ x, x * d)%Qc <$> v.
Definition mul_scalar (M : matrix) (d : Qc) : matrix := (λ row, mul_scalar1 row d) <$> M.

(** [v[a:b]]: out-of-range bounds are clipped. *)
Definition slice {A} (a b : nat) (l : list A) : list A := take (b - a) (drop a l).

(** [M[r0:r1, c0:c1]] *)
Definition slice2 {A} (r0 r1 c0 c1 : nat) (M : list (list A)) : list (list A) :=
  slice c0 c1 <$> slice r0 r1 M.

(** [M[r0:r1, c]]: an integer index must be in bounds. *)
Definition slice_col (r0 r1 c : nat) (M : matrix) : result vector :=
  if decide (c < ncols M) then Ok ((λ row, row !!! c) <$> slice r0 r1 M)
  else Raise IndexError.

(** [M[n, i]] *)
Definition getitem (M : matrix) (n i : nat) : result Qc :=
  match M !! n ≫= (.!! i) with
  | Some v => Ok v
  | None => Raise IndexError
  end.

(** [M[n, idx]] for an index array [idx]. *)
Definition getitems (M : matrix) (n : nat) (idx : list nat) : result vector :=
  mapM (getitem M n) idx.

(** [M[n, i] = v] *)
Definition setitem (M : matrix) (n i : nat) (v : Qc) : result matrix :=
  match M !! n with
  | Some row =>
      if decide (i < length row) then Ok (<[n := <[i := v]> row]> M)
      else Raise IndexError
  | None => Raise IndexError
  end.

(** Broadcasting of one dimension: equal extents, or one of them is 1. *)
Definition broadcast_dim (a b : nat) : result nat :=
  if decide (a = b) then Ok a
  else if decide (a = 1) then Ok b
  else if decide (b = 1) then Ok a
  else Raise ValueError.

(** A dimension of extent 1 is read with stride 0. *)
Definition stride (extent k : nat) : nat := if decide (extent = 1) then 0 else k.

(** Elementwise binary operation on 1-d arrays. *)
Definition binop1 (op : Qc → Qc → Qc) (u v : vector) : result vector :=
  m ← broadcast_dim (length u) (length v);
  Ok (mk_vector m (λ k, op (u !!! stride (length u) k) (v !!! stride (length v) k))).

(** Elementwise binary operation on 2-d arrays. *)
Definition binop (op : Qc → Qc → Qc) (A B : matrix) : result matrix :=
  r ← broadcast_dim (nrows A) (nrows B);
  c ← broadcast_dim (ncols A) (ncols B);
  Ok (mk_matrix r c (λ n i,
        op (entry A (stride (nrows A) n) (stride (ncols A) i))
           (entry B (stride (nrows B) n) (stride (ncols B) i)))).

(** [np.sum(v)] *)
Definition sum (v : vector) : Qc := foldr Qcplus 0%Qc v.

(** [np.sum(M, axis = -1)] *)
Definition sum_rows (M : matrix) : vector := sum <$> M.

(** [F[r0:r1, c] = v] *)
Definition setitem_col (F : matrix) (r0 r1 c : nat) (v : vector) : result matrix :=
  if decide (c < ncols F) then
    let m := length (slice r0 r1 F) in
    if decide (length v = m ∨ length v = 1) then
      Ok (imap (λ n row,
                  if decide (r0 ≤ n < r0 + m)
                  then <[c := v !!! stride (length v) (n - r0)]> row
                  else row) F)
    else Raise ValueError
  else Raise IndexError.

(** [np.diagonal(M)] *)
Definition diagonal (M : matrix) : vector :=
  mk_vector (nrows M `min` ncols M) (λ k, entry M k k).

End np.

(** ** The notebook *)

Section Solvers.

Variable Delta : Qc.
Variable N : nat.
Variables h lam : Qc → Qc → Qc.

(** *** Algorithm 1 *)

(** The body of the inner loop: the assignment to [fhat[n, i]]. *)
Definition alg1_cell (n i : nat) (fhat : np.matrix) : result np.matrix :=
  if decide (i = 0) then
    np.setitem fhat n i (h (Qn n * Delta) (Qn n * Delta))
  else
    let ks := np.arange 1 (i + 1) in
    prev ← np.getitems fhat n ((λ k, i - k) <$> ks);
    let lams := (λ k, lam (Delta * Qn k) (Qn (n - i) * Delta)) <$> ks in
    prods ← np.binop1 Qcmult prev lams;
    np.setitem fhat n i
      (h (Qn n * Delta) (Qn (n - i) * Delta)
       + np.sum (np.mul_scalar1 prods Delta))%Qc.

(** [for i in range(n + 1): ...] *)
Definition alg1_row (n : nat) (fhat : np.matrix) : result np.matrix :=
  for_each (alg1_cell n) (np.range (n + 1)) fhat.

(** The double loop, started on a working array [W], rows visited in the
    order [rows]. *)
Definition alg1_rows (rows : list nat) (W : np.matrix) : result np.matrix :=
  for_each alg1_row rows W.

Definition alg1_from (W : np.matrix) : result np.matrix :=
  alg1_rows (np.range (N + 1)) W.

(** [fhat = np.zeros(shape = (N + 1, N + 1))] followed by the double loop. *)
Definition algorithm1 : result np.matrix :=
  alg1_from (np.zeros (N + 1) (N + 1)).

(** *** Algorithm 2 *)

Definition A_H : np.matrix :=
  np.scale Delta (np.transpose (np.tile (np.arange 0 (N + 1)) (N + 1))).

Definition B_H : np.matrix :=
  np.scale Delta (np.toeplitz (np.arange 0 (N + 1))).

(** [H = h(A_H, B_H)].  The kernels are given as scalar functions; applied
    to arrays they act entry by entry, with numpy's broadcasting. *)
Definition H_matrix : result np.matrix := np.binop h A_H B_H.

Definition A_L : np.matrix := np.slice2 0 N 0 N A_H.

Definition B_L : np.matrix :=
  np.scale Delta (np.tile (np.flip (np.arange 1 (N + 1))) N).

(** [L = lam(B_L, A_L) * Delta] *)
Definition L_matrix : result np.matrix :=
  M ← np.binop lam B_L A_L;
  Ok (np.mul_scalar M Delta).

(** The body of the loop of Algorithm 2. *)
Definition alg2_step (H L : np.matrix) (i : nat) (F : np.matrix) : result np.matrix :=
  B ← np.binop Qcmult
        (np.slice2 (i + 1) (N + 1) 0 (i + 1) F)
        (np.slice2 0 (N - i) (N - i - 1) (N + 1) L);
  hcol ← np.slice_col (i + 1) (N + 1) (i + 1) H;
  v ← np.binop1 Qcplus hcol (np.sum_rows B);
  np.setitem_col F (i + 1) (N + 1) (i + 1) v.

(** [F[:, 0] = H[:, 0]] followed by the loop, started on a working array [W]. *)
Definition alg2_from (W : np.matrix) : result np.matrix :=
  H ← H_matrix;
  L ← L_matrix;
  h0 ← np.slice_col 0 (np.nrows H) 0 H;
  F ← np.setitem_col W 0 (np.nrows W) 0 h0;
  for_each (alg2_step H L) (np.range N) F.

(** [F = np.zeros(shape = (N + 1, N + 1))] followed by the above. *)
Definition algorithm2 : result np.matrix :=
  alg2_from (np.zeros (N + 1) (N + 1)).

(** *** The recurrence both algorithms solve *)

(** The value assigned to [fhat[n, i]] when the earlier entries of row [n]
    are [prev 0, ..., prev (i - 1)]. *)
Definition cell_value (n i : nat) (prev : nat → Qc) : Qc :=
  if decide (i = 0) then h (Qn n * Delta) (Qn n * Delta)
  else
    (h (Qn n * Delta) (Qn (n - i) * Delta)
     + np.sum (np.mk_vector i (λ k,
         prev (i - (1 + k))%nat * lam (Delta * Qn (1 + k)) (Qn (n - i) * Delta) * Delta)))%Qc.

(** The first [i] entries of row [n]. *)
Fixpoint row_values (n i : nat) : np.vector :=
  match i with
  | 0 => []
  | S j => let p := row_values n j in p ++ [cell_value n j (λ k, p !!! k)]
  end.

Definition fval (n i : nat) : Qc := row_values n (S i) !!! i.

End Solvers.

(** [|n - i|], the entry [n, i] of [toeplitz(np.arange(0, N + 1))]. *)
Definition lag (n i : nat) : nat := if decide (i ≤ n) then n - i else i - n.

(** [Σ_{k = a..b} f k] *)
Definition sum_from_to (a b : nat) (f : nat → Qc) : Qc :=
  foldr Qcplus 0%Qc (f <$> seq a (b + 1 - a)).

(** [Delta = T / N]: Python raises on division by zero. *)
Definition step_size (T : Qc) (N : nat) : result Qc :=
  if decide (N = 0) then Raise ZeroDivisionError else Ok (T / Qn N)%Qc.

(** [f_loop = np.diagonal(fhat)] *)
Definition f_loop (T : Qc) (N : nat) (h lam : Qc → Qc → Qc) : result np.vector :=
  Delta ← step_size T N;
  fhat ← algorithm1 Delta N h lam;
  Ok (np.diagonal fhat).

(** [f_vec = np.diagonal(F)] *)
Definition f_vec (T : Qc) (N : nat) (h lam : Qc → Qc → Qc) : result np.vector :=
  Delta ← step_size T N;
  F ← algorithm2 Delta N h lam;
  Ok (np.diagonal F).


(** The rational values of a result vector, for running the model. *)
Definition run_values (r : result np.vector) : option (list Q) :=
  match r with
  | Ok v => Some (this <$> v)
  | Raise _ => None
  end.

(** [grid = Delta * np.arange(0, N + 1)] *)
Definition grid (Delta : Qc) (N : nat) : np.vector :=
  np.scale1 Delta (np.arange 0 (N + 1)).

(** The cell of Algorithm 2 ([F[:, 0] = H[:, 0]] and the loop) run on given
    kernel matrices [H] and [L] and a working array [W]. *)
Definition alg2_with (N : nat) (H L W : np.matrix) : result np.matrix :=
  h0 ← np.slice_col 0 (np.nrows H) 0 H;
  F ← np.setitem_col W 0 (np.nrows W) 0 h0;
  for_each (alg2_step N H L) (np.range N) F.

(** *** The kernels of the notebook *)

Section Kernels.

(** [scipy.stats.gamma.cdf(x, a, scale)], [scipy.stats.gamma.pdf(x, a, scale)]
    and [np.sin(x)] are library functions, taken as given. *)
Variables gamma_cdf gamma_pdf : Qc → Qc → Qc → Qc.
Variable np_sin : Qc → Qc.

(** [a = 3] *)
Definition gamma_shape : Qc := Qn 3.

(** [1 / (1 + 0.01 * tau)] on Python floats: division by zero raises. *)
Definition gamma_scale (tau : Qc) : result Qc :=
  let d := (1 + Q2Qc (1 # 100) * tau)%Qc in
  if decide (d = 0%Qc) then Raise ZeroDivisionError else Ok (1 / d)%Qc.

Definition G (t tau : Qc) : result Qc :=
  s ← gamma_scale tau;
  Ok (gamma_cdf t gamma_shape s).

Definition g (t tau : Qc) : result Qc :=
  s ← gamma_scale tau;
  Ok (gamma_pdf t gamma_shape s).

Definition R (t : Qc) : Qc := (Q2Qc (115 # 100) + np_sin (Q2Qc (15 # 100) * t))%Qc.

(** [h(t, tau) = 1 - G(t - tau, tau)] *)
Definition h_kernel (t tau : Qc) : result Qc :=
  x ← G (t - tau)%Qc tau;
  Ok (1 - x)%Qc.

(** [lam(u, tau) = R(u + tau) * g(u, tau)] *)
Definition lam_kernel (u tau : Qc) : result Qc :=
  x ← g u tau;
  Ok (R (u + tau) * x)%Qc.

(** The values of the kernels where the scale is defined. *)
Definition h_value (t tau : Qc) : Qc :=
  (1 - gamma_cdf (t - tau) gamma_shape (1 / (1 + Q2Qc (1 # 100) * tau)))%Qc.

Definition lam_value (u tau : Qc) : Qc :=
  (R (u + tau) * gamma_pdf u gamma_shape (1 / (1 + Q2Qc (1 # 100) * tau)))%Qc.

End Kernels.

(** * Facts about the array operations *)

(** Case analysis on the decisions of a goal about indices. *)
Ltac case_arith := repeat case_decide; try done; lia.

Lemma mk_vector_lookup {A} m (f : nat → A) k :
  np.mk_vector m f !! k = if decide (k < m) then Some (f k) else None.
Proof.
  unfold np.mk_vector. rewrite list_lookup_fmap.
  case_decide.
  - by rewrite lookup_seq_lt.
  - by rewrite lookup_seq_ge by lia.
Qed.

Lemma mk_vector_length {A} m (f : nat → A) : length (np.mk_vector m f) = m.
Proof. unfold np.mk_vector. by rewrite length_fmap, length_seq. Qed.

Lemma mk_vector_ext {A} m (f g : nat → A) :
  (∀ k, k < m → f k = g k) → np.mk_vector m f = np.mk_vector m g.
Proof.
  intros E. apply list_eq. intros k. rewrite !mk_vector_lookup.
  case_decide; [f_equal; auto | done].
Qed.

Lemma mk_vector_S {A} m (f : nat → A) :
  np.mk_vector (S m) f = np.mk_vector m f ++ [f m].
Proof. unfold np.mk_vector. by rewrite seq_S, fmap_app. Qed.

Lemma mk_vector_eta `{Inhabited A} (l : list A) :
  l = np.mk_vector (length l) (λ k, l !!! k).
Proof.
  apply list_eq. intros k. rewrite mk_vector_lookup. case_decide.
  - by apply list_lookup_lookup_total_lt.
  - apply lookup_ge_None. lia.
Qed.

Lemma mk_vector_total `{Inhabited A} m (f : nat → A) k :
  k < m → np.mk_vector m f !!! k = f k.
Proof.
  intros Hk. apply list_lookup_total_correct.
  rewrite mk_vector_lookup. by rewrite decide_True.
Qed.

Lemma mk_vector_fmap {A B} (φ : A → B) m (f : nat → A) :
  φ <$> np.mk_vector m f = np.mk_vector m (λ k, φ (f k)).
Proof. unfold np.mk_vector. by rewrite <-list_fmap_compose. Qed.

Lemma mk_vector_slice {A} a b m (f : nat → A) :
  np.slice a b (np.mk_vector m f) = np.mk_vector (b `min` m - a) (λ k, f (a + k)).
Proof.
  apply list_eq. intros k. unfold np.slice.
  rewrite mk_vector_lookup.
  destruct (decide (k < b - a)) as [Hk|Hk].
  - rewrite lookup_take_lt by done. rewrite lookup_drop, mk_vector_lookup.
    case_arith.
  - rewrite lookup_take_ge by lia. rewrite decide_False by lia. done.
Qed.

Lemma mk_vector_reverse {A} m (f : nat → A) :
  reverse (np.mk_vector m f) = np.mk_vector m (λ k, f (m - 1 - k)).
Proof.
  induction m as [|m IH] in f |- *; [done|].
  rewrite mk_vector_S, reverse_snoc, IH.
  change (?x :: np.mk_vector m ?g) with ([x] ++ np.mk_vector m g).
  unfold np.mk_vector at 2. simpl. f_equal.
  - f_equal. lia.
  - rewrite <-fmap_S_seq, <-list_fmap_compose. apply mk_vector_ext.
    intros k Hk. simpl. f_equal. lia.
Qed.

Lemma mk_matrix_ext {A} r c (f g : nat → nat → A) :
  (∀ n i, n < r → i < c → f n i = g n i) → np.mk_matrix r c f = np.mk_matrix r c g.
Proof.
  intros E. apply mk_vector_ext. intros n Hn. apply mk_vector_ext. auto.
Qed.

Lemma mk_matrix_nrows {A} r c (f : nat → nat → A) : np.nrows (np.mk_matrix r c f) = r.
Proof. apply mk_vector_length. Qed.

Lemma mk_matrix_ncols {A} r c (f : nat → nat → A) :
  0 < r → np.ncols (np.mk_matrix r c f) = c.
Proof.
  intros Hr. destruct r as [|r]; [lia|].
  unfold np.mk_matrix, np.mk_vector at 1. simpl. apply mk_vector_length.
Qed.

Lemma mk_matrix_lookup {A} r c (f : nat → nat → A) n :
  n < r → np.mk_matrix r c f !! n = Some (np.mk_vector c (f n)).
Proof. intros Hn. unfold np.mk_matrix. rewrite mk_vector_lookup. by rewrite decide_True. Qed.

Lemma mk_matrix_total `{Inhabited A} r c (f : nat → nat → A) n i :
  n < r → i < c → np.entry (np.mk_matrix r c f) n i = f n i.
Proof.
  intros Hn Hi. unfold np.entry, np.mk_matrix.
  rewrite mk_vector_total by done. by rewrite mk_vector_total.
Qed.

Lemma mk_matrix_slice2 {A} r0 r1 c0 c1 r c (f : nat → nat → A) :
  np.slice2 r0 r1 c0 c1 (np.mk_matrix r c f)
  = np.mk_matrix (r1 `min` r - r0) (c1 `min` c - c0) (λ n i, f (r0 + n) (c0 + i)).
Proof.
  unfold np.slice2, np.mk_matrix. rewrite mk_vector_slice, mk_vector_fmap.
  apply mk_vector_ext. intros n Hn. apply mk_vector_slice.
Qed.


Lemma is_matrix_mk {A} r c (f : nat → nat → A) : np.is_matrix r c (np.mk_matrix r c f).
Proof.
  split; [apply mk_vector_length|].
  apply Forall_forall. intros row [n [-> _]]%list_elem_of_fmap. apply mk_vector_length.
Qed.

Lemma is_matrix_eta `{Inhabited A} r c (M : list (list A)) :
  np.is_matrix r c M → M = np.mk_matrix r c (np.entry M).
Proof.
  intros [Hr Hc]. apply list_eq. intros n.
  unfold np.mk_matrix. rewrite mk_vector_lookup. case_decide as Hn.
  - destruct (lookup_lt_is_Some_2 M n) as [row Hrow]; [lia|].
    rewrite Hrow. f_equal.
    rewrite (mk_vector_eta row), (Forall_lookup_1 _ _ _ _ Hc Hrow).
    apply mk_vector_ext. intros i _. unfold np.entry.
    by rewrite (list_lookup_total_correct _ _ _ Hrow).
  - apply lookup_ge_None_2. lia.
Qed.

Lemma zeros_mk r c : np.zeros r c = np.mk_matrix r c (λ _ _, 0%Qc).
Proof.
  unfold np.zeros, np.mk_matrix.
  apply list_eq. intros n. rewrite mk_vector_lookup. case_decide.
  - rewrite lookup_replicate_2 by done. f_equal.
    apply list_eq. intros i. rewrite mk_vector_lookup. case_decide.
    + by rewrite lookup_replicate_2.
    + apply lookup_replicate_None. lia.
  - apply lookup_replicate_None. lia.
Qed.

Lemma tile_mk `{Inhabited A} (v : list A) r :
  np.tile v r = np.mk_matrix r (length v) (λ _ i, v !!! i).
Proof.
  unfold np.tile, np.mk_matrix.
  apply list_eq. intros n. rewrite mk_vector_lookup. case_decide.
  - rewrite lookup_replicate_2 by done. f_equal. apply mk_vector_eta.
  - apply lookup_replicate_None. lia.
Qed.

Lemma arange_mk a b : np.arange a b = np.mk_vector (b - a) (λ k, a + k).
Proof. unfold np.arange, np.mk_vector. by rewrite fmap_add_seq, Nat.add_0_r. Qed.

Lemma transpose_mk `{Inhabited A} r c (f : nat → nat → A) :
  0 < r → np.transpose (np.mk_matrix r c f) = np.mk_matrix c r (λ j n, f n j).
Proof.
  intros Hr. unfold np.transpose.
  rewrite mk_matrix_nrows, mk_matrix_ncols by done.
  apply mk_matrix_ext. intros j n Hj Hn. by apply mk_matrix_total.
Qed.

Lemma toeplitz_mk `{Inhabited A} m (f : nat → A) :
  np.toeplitz (np.mk_vector m f)
  = np.mk_matrix m m (λ n i, f (if decide (i ≤ n) then n - i else i - n)).
Proof.
  unfold np.toeplitz. rewrite mk_vector_length.
  apply mk_matrix_ext. intros n i Hn Hi.
  apply mk_vector_total. case_decide; lia.
Qed.

Lemma scale_mk d r c (f : nat → nat → nat) :
  np.scale d (np.mk_matrix r c f) = np.mk_matrix r c (λ n i, d * Qn (f n i))%Qc.
Proof.
  unfold np.scale, np.mk_matrix. rewrite mk_vector_fmap.
  apply mk_vector_ext. intros n Hn. by rewrite mk_vector_fmap.
Qed.

Lemma mul_scalar1_mk m (f : nat → Qc) d :
  np.mul_scalar1 (np.mk_vector m f) d = np.mk_vector m (λ k, f k * d)%Qc.
Proof. apply mk_vector_fmap. Qed.

Lemma mul_scalar_mk r c (f : nat → nat → Qc) d :
  np.mul_scalar (np.mk_matrix r c f) d = np.mk_matrix r c (λ n i, f n i * d)%Qc.
Proof.
  unfold np.mul_scalar, np.mk_matrix. rewrite mk_vector_fmap.
  apply mk_vector_ext. intros n Hn. apply mul_scalar1_mk.
Qed.

Lemma broadcast_dim_refl a : np.broadcast_dim a a = Ok a.
Proof. unfold np.broadcast_dim. by rewrite decide_True. Qed.

Lemma stride_lt extent k : k < extent → np.stride extent k = k.
Proof. unfold np.stride. case_decide; lia. Qed.

Lemma binop1_mk op m (f g : nat → Qc) :
  np.binop1 op (np.mk_vector m f) (np.mk_vector m g)
  = Ok (np.mk_vector m (λ k, op (f k) (g k))).
Proof.
  unfold np.binop1. rewrite !mk_vector_length, broadcast_dim_refl. simpl.
  f_equal. apply mk_vector_ext. intros k Hk.
  rewrite stride_lt by done. by rewrite !mk_vector_total.
Qed.

Lemma binop_mk op r c (f g : nat → nat → Qc) :
  np.binop op (np.mk_matrix r c f) (np.mk_matrix r c g)
  = Ok (np.mk_matrix r c (λ n i, op (f n i) (g n i))).
Proof.
  unfold np.binop. rewrite !mk_matrix_nrows, broadcast_dim_refl. simpl.
  destruct (decide (r = 0)) as [->|Hr]; [done|].
  rewrite !mk_matrix_ncols, broadcast_dim_refl by lia. simpl.
  f_equal. apply mk_matrix_ext. intros n i Hn Hi.
  rewrite !stride_lt by done. by rewrite !mk_matrix_total.
Qed.

Lemma sum_rows_mk r c (f : nat → nat → Qc) :
  np.sum_rows (np.mk_matrix r c f) = np.mk_vector r (λ n, np.sum (np.mk_vector c (f n))).
Proof. apply mk_vector_fmap. Qed.

Lemma slice_col_mk r0 r1 j r c (f : nat → nat → Qc) :
  0 < r → j < c →
  np.slice_col r0 r1 j (np.mk_matrix r c f)
  = Ok (np.mk_vector (r1 `min` r - r0) (λ n, f (r0 + n) j)).
Proof.
  intros Hr Hj. unfold np.slice_col.
  rewrite mk_matrix_ncols, decide_True by done. f_equal.
  unfold np.mk_matrix. rewrite mk_vector_slice, mk_vector_fmap.
  apply mk_vector_ext. intros n Hn. by apply mk_vector_total.
Qed.

Lemma getitem_mk r c (f : nat → nat → Qc) n i :
  n < r → i < c → np.getitem (np.mk_matrix r c f) n i = Ok (f n i).
Proof.
  intros Hn Hi. unfold np.getitem.
  rewrite mk_matrix_lookup by done. simpl.
  rewrite mk_vector_lookup. by rewrite decide_True.
Qed.

Lemma getitems_mk r c (f : nat → nat → Qc) n idx :
  n < r → Forall (λ i, i < c) idx →
  np.getitems (np.mk_matrix r c f) n idx = Ok (f n <$> idx).
Proof.
  intros Hn. unfold np.getitems.
  induction 1 as [|i idx Hi _ IH]; [done|].
  simpl. rewrite getitem_mk by done. simpl. rewrite IH. done.
Qed.

Lemma setitem_mk r c (f : nat → nat → Qc) n i v :
  n < r → i < c →
  np.setitem (np.mk_matrix r c f) n i v
  = Ok (np.mk_matrix r c (λ n' i', if decide (n' = n ∧ i' = i) then v else f n' i')).
Proof.
  intros Hn Hi. unfold np.setitem.
  rewrite mk_matrix_lookup by done.
  rewrite mk_vector_length, decide_True by done. f_equal.
  apply list_eq. intros n'.
  destruct (decide (n' < r)) as [Hn'|Hn'].
  - rewrite (mk_matrix_lookup _ _ _ n') by done.
    destruct (decide (n' = n)) as [->|Hne].
    + rewrite list_lookup_insert_eq by (unfold np.mk_matrix; by rewrite mk_vector_length).
      f_equal. apply list_eq. intros i'. rewrite mk_vector_lookup.
      destruct (decide (i' = i)) as [->|Hne'].
      * rewrite list_lookup_insert_eq by by rewrite mk_vector_length.
        rewrite !decide_True by done. done.
      * rewrite list_lookup_insert_ne by done. rewrite mk_vector_lookup.
        case_decide; [|done]. by rewrite decide_False by tauto.
    + rewrite list_lookup_insert_ne by done. rewrite mk_matrix_lookup by done.
      f_equal. apply mk_vector_ext. intros i' _. by rewrite decide_False by tauto.
  - rewrite !lookup_ge_None_2; [done|..];
      rewrite ?length_insert; unfold np.mk_matrix; rewrite mk_vector_length; lia.
Qed.

Lemma mk_matrix_slice_length {A} r0 r1 r c (f : nat → nat → A) :
  length (np.slice r0 r1 (np.mk_matrix r c f)) = r1 `min` r - r0.
Proof. unfold np.mk_matrix. by rewrite mk_vector_slice, mk_vector_length. Qed.

Lemma setitem_col_mk r c (f : nat → nat → Qc) r0 r1 j m (g : nat → Qc) :
  0 < r → j < c → m = r1 `min` r - r0 →
  np.setitem_col (np.mk_matrix r c f) r0 r1 j (np.mk_vector m g)
  = Ok (np.mk_matrix r c
          (λ n i, if decide (i = j ∧ r0 ≤ n < r0 + m) then g (n - r0) else f n i)).
Proof.
  intros Hr Hj ->. unfold np.setitem_col.
  rewrite mk_matrix_ncols, decide_True by done.
  cbv zeta. rewrite mk_matrix_slice_length, !mk_vector_length, decide_True by auto.
  f_equal.
  apply list_eq. intros n. rewrite list_lookup_imap.
  destruct (decide (n < r)) as [Hn|Hn].
  - rewrite !mk_matrix_lookup by done. simpl. f_equal.
    apply list_eq. intros i. rewrite mk_vector_lookup.
    case_decide as Hrange.
    + destruct (decide (i = j)) as [->|Hne].
      * rewrite list_lookup_insert_eq by by rewrite mk_vector_length.
        rewrite !decide_True by done.
        rewrite stride_lt by lia. by rewrite mk_vector_total by lia.
      * rewrite list_lookup_insert_ne by done. rewrite mk_vector_lookup.
        case_decide; [|done]. by rewrite decide_False by tauto.
    + rewrite mk_vector_lookup. case_decide; [|done].
      by rewrite decide_False by tauto.
  - rewrite !lookup_ge_None_2; [done|..];
      unfold np.mk_matrix; rewrite mk_vector_length; lia.
Qed.

Lemma diagonal_mk r c (f : nat → nat → Qc) :
  0 < r → np.diagonal (np.mk_matrix r c f) = np.mk_vector (r `min` c) (λ k, f k k).
Proof.
  intros Hr. unfold np.diagonal.
  rewrite mk_matrix_nrows, mk_matrix_ncols by done.
  apply mk_vector_ext. intros k Hk. apply mk_matrix_total; lia.
Qed.

(** * Loops *)

Lemma for_each_app {St} (body : nat → St → result St) l1 l2 s :
  for_each body (l1 ++ l2) s = (s' ← for_each body l1 s; for_each body l2 s').
Proof.
  induction l1 as [|i l1 IH] in s |- *; [done|].
  simpl. destruct (body i s) as [s'|e]; simpl; [apply IH|done].
Qed.

Lemma for_each_range_S {St} (body : nat → St → result St) m s :
  for_each body (np.range (S m)) s = (s' ← for_each body (np.range m) s; body m s').
Proof.
  unfold np.range. rewrite seq_S, for_each_app. simpl.
  destruct (for_each body (seq 0 m) s) as [s'|e]; simpl; [|done].
  by destruct (body m s').
Qed.

(** * Sums *)

Lemma sum_app u v : np.sum (u ++ v) = (np.sum u + np.sum v)%Qc.
Proof.
  induction u as [|x u IH]; simpl.
  - by rewrite Qcplus_0_l.
  - rewrite IH. apply Qcplus_assoc.
Qed.

Lemma sum_reverse v : np.sum (reverse v) = np.sum v.
Proof.
  induction v as [|x v IH]; [done|].
  rewrite reverse_cons, sum_app, IH. simpl. ring.
Qed.

Lemma sum_mk_vector_rev m (f : nat → Qc) :
  np.sum (np.mk_vector m f) = np.sum (np.mk_vector m (λ k, f (m - 1 - k))).
Proof. by rewrite <-mk_vector_reverse, sum_reverse. Qed.

Lemma sum_mk_vector_zero m (f : nat → Qc) :
  (∀ k, k < m → f k = 0%Qc) → np.sum (np.mk_vector m f) = 0%Qc.
Proof.
  induction m as [|m IH]; intros Hf; [done|].
  rewrite mk_vector_S, sum_app, IH by (intros; apply Hf; lia).
  simpl. rewrite Hf by lia. ring.
Qed.

Lemma sum_mul_scalar v d : np.sum (np.mul_scalar1 v d) = (d * np.sum v)%Qc.
Proof.
  induction v as [|x v IH]; [simpl; ring|].
  change (np.sum (np.mul_scalar1 (x :: v) d))
    with (x * d + np.sum (np.mul_scalar1 v d))%Qc.
  rewrite IH. change (np.sum (x :: v)) with (x + np.sum v)%Qc. ring.
Qed.

(** * The recurrence *)

Section recurrence.
Variable Delta : Qc.
Variables h lam : Qc → Qc → Qc.

Local Abbreviation cell := (cell_value Delta h lam).
Local Abbreviation rowv := (row_values Delta h lam).
Local Abbreviation fv := (fval Delta h lam).

Lemma cell_value_ext n i (p q : nat → Qc) :
  (∀ k, k < i → p k = q k) → cell n i p = cell n i q.
Proof.
  intros E. unfold cell_value. case_decide; [done|].
  f_equal. f_equal. apply mk_vector_ext. intros k Hk. rewrite E by lia. done.
Qed.

Lemma row_values_length n i : length (rowv n i) = i.
Proof. induction i as [|i IH]; simpl; [done|]. rewrite length_app, IH. simpl. lia. Qed.

Lemma row_values_total n i k : k < i → rowv n i !!! k = fv n k.
Proof.
  induction i as [|i IH]; [lia|]. intros Hk.
  destruct (decide (k = i)) as [->|Hne]; [done|].
  simpl. rewrite lookup_total_app_l by (rewrite row_values_length; lia).
  apply IH. lia.
Qed.

Lemma fval_eq n i : fv n i = cell n i (fv n).
Proof.
  unfold fval at 1. simpl.
  rewrite lookup_total_app_r by (by rewrite row_values_length).
  rewrite row_values_length, Nat.sub_diag. simpl.
  apply cell_value_ext. intros k Hk. by apply row_values_total.
Qed.

End recurrence.

(** * Algorithm 1 *)

Section algorithm1_facts.
Variable Delta : Qc.
Variables h lam : Qc → Qc → Qc.

Local Abbreviation cell := (cell_value Delta h lam).
Local Abbreviation fv := (fval Delta h lam).

(** One assignment of the inner loop, on a working array given by its
    entries. *)
Lemma alg1_cell_mk r c (f : nat → nat → Qc) n i :
  n < r → i < c →
  alg1_cell Delta h lam n i (np.mk_matrix r c f)
  = Ok (np.mk_matrix r c
          (λ n' i', if decide (n' = n ∧ i' = i) then cell n i (f n) else f n' i')).
Proof.
  intros Hn Hi. unfold alg1_cell, cell_value.
  destruct (decide (i = 0)) as [->|Hi0]; [by apply setitem_mk|].
  rewrite arange_mk, mk_vector_fmap.
  replace (i + 1 - 1) with i by lia.
  rewrite getitems_mk; [|done|].
  2:{ apply Forall_forall. intros x [k [-> Hk]]%list_elem_of_fmap. lia. }
  simpl. rewrite !mk_vector_fmap, binop1_mk. simpl.
  rewrite mul_scalar1_mk. by apply setitem_mk.
Qed.

(** The inner loop after its first [j] iterations. *)
Lemma alg1_row_prefix r c (f : nat → nat → Qc) n j :
  n < r → j ≤ c →
  for_each (alg1_cell Delta h lam n) (np.range j) (np.mk_matrix r c f)
  = Ok (np.mk_matrix r c
          (λ n' i', if decide (n' = n ∧ i' < j) then fv n i' else f n' i')).
Proof.
  intros Hn. induction j as [|j IH]; intros Hj.
  - simpl. f_equal. apply mk_matrix_ext. intros n' i' _ _.
    rewrite decide_False by lia. done.
  - rewrite for_each_range_S, IH by lia. simpl.
    rewrite alg1_cell_mk by lia. f_equal.
    apply mk_matrix_ext. intros n' i' Hn' Hi'.
    destruct (decide (n' = n ∧ i' = j)) as [[-> ->]|Hne].
    + rewrite decide_True by lia. rewrite fval_eq.
      apply cell_value_ext. intros k Hk. by rewrite decide_True by lia.
    + case_arith.
Qed.

Lemma alg1_row_mk r c (f : nat → nat → Qc) n :
  n < r → n < c →
  alg1_row Delta h lam n (np.mk_matrix r c f)
  = Ok (np.mk_matrix r c
          (λ n' i', if decide (n' = n ∧ i' ≤ n) then fv n i' else f n' i')).
Proof.
  intros Hn Hc. unfold alg1_row. rewrite alg1_row_prefix by lia. f_equal.
  apply mk_matrix_ext. intros n' i' _ _. case_arith.
Qed.

(** The outer loop, over any list of rows. *)
Lemma alg1_rows_mk r c (f : nat → nat → Qc) rows :
  Forall (λ n, n < r ∧ n < c) rows →
  alg1_rows Delta h lam rows (np.mk_matrix r c f)
  = Ok (np.mk_matrix r c
          (λ n i, if decide (n ∈ rows ∧ i ≤ n) then fv n i else f n i)).
Proof.
  unfold alg1_rows. intros Hrows. revert f.
  induction Hrows as [|n rows [Hn Hc] _ IH]; intros f.
  - done.
  - simpl. rewrite alg1_row_mk by done. simpl. rewrite IH. f_equal.
    apply mk_matrix_ext. intros n' i' _ _.
    destruct (decide (n' ∈ rows ∧ i' ≤ n')) as [[Hin Hle]|Hnin].
    + rewrite decide_True by (split; [by right|done]). done.
    + destruct (decide (n' = n ∧ i' ≤ n)) as [[-> Hle]|Hne].
      * rewrite decide_True by (split; [by left|done]). done.
      * rewrite decide_False; [done|].
        intros [[->|Hin]%elem_of_cons Hle]; tauto.
Qed.

Lemma alg1_from_mk N (f : nat → nat → Qc) :
  alg1_from Delta N h lam (np.mk_matrix (N + 1) (N + 1) f)
  = Ok (np.mk_matrix (N + 1) (N + 1)
          (λ n i, if decide (i ≤ n) then fv n i else f n i)).
Proof.
  unfold alg1_from. rewrite alg1_rows_mk.
  - f_equal. apply mk_matrix_ext. intros n i Hn Hi.
    assert (n ∈ np.range (N + 1)) by (apply elem_of_seq; lia).
    repeat case_decide; try done; tauto.
  - apply Forall_forall. intros n Hn%elem_of_seq. lia.
Qed.

Lemma algorithm1_mk N :
  algorithm1 Delta N h lam
  = Ok (np.mk_matrix (N + 1) (N + 1)
          (λ n i, if decide (i ≤ n) then fv n i else 0%Qc)).
Proof. unfold algorithm1. by rewrite zeros_mk, alg1_from_mk. Qed.

End algorithm1_facts.

(** * Algorithm 2 *)

Lemma mk_matrix_dims {A} r r' c c' (f : nat → nat → A) :
  r = r' → c = c' → np.mk_matrix r c f = np.mk_matrix r' c' f.
Proof. by intros -> ->. Qed.

Section algorithm2_facts.
Variable Delta : Qc.
Variable N : nat.
Variables h lam : Qc → Qc → Qc.

Local Abbreviation fv := (fval Delta h lam).

Lemma A_H_mk :
  A_H Delta N = np.mk_matrix (N + 1) (N + 1) (λ n _, Delta * Qn n)%Qc.
Proof.
  unfold A_H. rewrite tile_mk, transpose_mk, scale_mk by lia.
  rewrite arange_mk, mk_vector_length.
  rewrite (mk_matrix_dims _ (N + 1) _ (N + 1)) by lia.
  apply mk_matrix_ext. intros n i Hn Hi.
  rewrite mk_vector_total by lia. done.
Qed.

Lemma B_H_mk :
  B_H Delta N = np.mk_matrix (N + 1) (N + 1) (λ n i, Delta * Qn (lag n i))%Qc.
Proof.
  unfold B_H. rewrite arange_mk, toeplitz_mk, scale_mk.
  by rewrite (mk_matrix_dims _ (N + 1) _ (N + 1)) by lia.
Qed.

Lemma H_matrix_mk :
  H_matrix Delta N h
  = Ok (np.mk_matrix (N + 1) (N + 1)
          (λ n i, h (Delta * Qn n) (Delta * Qn (lag n i)))%Qc).
Proof. unfold H_matrix. by rewrite A_H_mk, B_H_mk, binop_mk. Qed.

Lemma A_L_mk : A_L Delta N = np.mk_matrix N N (λ n _, Delta * Qn n)%Qc.
Proof.
  unfold A_L. rewrite A_H_mk, mk_matrix_slice2.
  by rewrite (mk_matrix_dims _ N _ N) by lia.
Qed.

Lemma B_L_mk : B_L Delta N = np.mk_matrix N N (λ _ k, Delta * Qn (N - k))%Qc.
Proof.
  unfold B_L, np.flip. rewrite arange_mk, mk_vector_reverse, tile_mk, scale_mk.
  rewrite mk_vector_length.
  rewrite (mk_matrix_dims _ N _ N) by lia.
  apply mk_matrix_ext. intros n k Hn Hk.
  rewrite mk_vector_total by lia. do 2 f_equal. lia.
Qed.

Lemma L_matrix_mk :
  L_matrix Delta N lam
  = Ok (np.mk_matrix N N
          (λ j k, lam (Delta * Qn (N - k)) (Delta * Qn j) * Delta)%Qc).
Proof.
  unfold L_matrix. rewrite A_L_mk, B_L_mk, binop_mk. simpl.
  by rewrite mul_scalar_mk.
Qed.

End algorithm2_facts.

Lemma mk_matrix_slice2_dims {A} r0 r1 c0 c1 r c r' c' (f : nat → nat → A) :
  r' = r1 `min` r - r0 → c' = c1 `min` c - c0 →
  np.slice2 r0 r1 c0 c1 (np.mk_matrix r c f)
  = np.mk_matrix r' c' (λ n i, f (r0 + n) (c0 + i)).
Proof. intros -> ->. apply mk_matrix_slice2. Qed.

Lemma slice_col_mk_dims r0 r1 j r c m (f : nat → nat → Qc) :
  0 < r → j < c → m = r1 `min` r - r0 →
  np.slice_col r0 r1 j (np.mk_matrix r c f) = Ok (np.mk_vector m (λ n, f (r0 + n) j)).
Proof. intros Hr Hj ->. by apply slice_col_mk. Qed.

Section algorithm2_loop.
Variable Delta : Qc.
Variable N : nat.
Variables h lam : Qc → Qc → Qc.

Local Abbreviation fv := (fval Delta h lam).

(** One column update, on arrays given by their entries. *)
Lemma alg2_step_mk (Hf Lf f : nat → nat → Qc) i :
  i < N →
  alg2_step N (np.mk_matrix (N + 1) (N + 1) Hf) (np.mk_matrix N N Lf) i
    (np.mk_matrix (N + 1) (N + 1) f)
  = Ok (np.mk_matrix (N + 1) (N + 1)
          (λ n c,
             if decide (c = i + 1 ∧ i + 1 ≤ n)
             then (Hf n (i + 1)%nat
                   + np.sum (np.mk_vector (i + 1)
                       (λ c', f n c' * Lf (n - (i + 1))%nat (N - i - 1 + c')%nat)))%Qc
             else f n c)).
Proof.
  intros Hi. unfold alg2_step.
  rewrite (mk_matrix_slice2_dims _ _ _ _ (N + 1) _ (N - i) (i + 1)) by lia.
  rewrite (mk_matrix_slice2_dims _ _ _ _ N _ (N - i) (i + 1)) by lia.
  rewrite binop_mk. simpl.
  rewrite (slice_col_mk_dims _ _ _ _ _ (N - i)) by lia. simpl.
  rewrite sum_rows_mk, binop1_mk. simpl.
  rewrite (setitem_col_mk _ _ _ _ _ _ (N - i)) by lia. f_equal.
  apply mk_matrix_ext. intros n c Hn Hc.
  destruct (decide (c = i + 1 ∧ i + 1 ≤ n)) as [[-> Hle]|Hne].
  - rewrite decide_True by lia.
    replace (i + 1 + (n - (i + 1))) with n by lia.
    done.
  - rewrite decide_False by lia. done.
Qed.

End algorithm2_loop.

Section algorithm2_result.
Variable Delta : Qc.
Variable N : nat.
Variables h lam : Qc → Qc → Qc.

Local Abbreviation fv := (fval Delta h lam).
Local Abbreviation Hf := (λ n i : nat, h (Delta * Qn n) (Delta * Qn (lag n i)))%Qc.
Local Abbreviation Lf := (λ j k : nat, lam (Delta * Qn (N - k)) (Delta * Qn j) * Delta)%Qc.

(** Column 0 of [H] is the base case of the recurrence. *)
Lemma H_column_0 n : Hf n 0 = fv n 0.
Proof.
  rewrite fval_eq. unfold cell_value, lag. simpl.
  rewrite Nat.sub_0_r. by rewrite (Qcmult_comm Delta).
Qed.

(** The vectorised column update computes the convolution sum of the
    recurrence, summed in the opposite order. *)
Lemma column_value n i :
  i < N → i + 1 ≤ n →
  (Hf n (i + 1)%nat
   + np.sum (np.mk_vector (i + 1)
       (λ c, fv n c * Lf (n - (i + 1))%nat (N - i - 1 + c)%nat)))%Qc
  = fv n (i + 1).
Proof.
  intros Hi Hn. rewrite (fval_eq _ _ _ n (i + 1)). unfold cell_value.
  rewrite decide_False by lia. unfold lag. rewrite decide_True by lia.
  rewrite !(Qcmult_comm Delta). f_equal.
  rewrite sum_mk_vector_rev. f_equal.
  apply mk_vector_ext. intros k Hk.
  replace (i + 1 - 1 - k) with (i + 1 - (1 + k)) by lia.
  replace (N - (N - i - 1 + (i + 1 - (1 + k)))) with (1 + k) by lia.
  rewrite (Qcmult_comm Delta). ring.
Qed.

(** The loop after its first [j] iterations. *)
Lemma alg2_loop_prefix (f : nat → nat → Qc) j :
  j ≤ N → (∀ n, n ≤ N → f n 0 = fv n 0) →
  for_each (alg2_step N (np.mk_matrix (N + 1) (N + 1) Hf) (np.mk_matrix N N Lf))
    (np.range j) (np.mk_matrix (N + 1) (N + 1) f)
  = Ok (np.mk_matrix (N + 1) (N + 1)
          (λ n c, if decide (1 ≤ c ≤ j ∧ c ≤ n) then fv n c else f n c)).
Proof.
  intros Hj Hf0. induction j as [|j IH].
  - simpl. f_equal. apply mk_matrix_ext. intros n c _ _.
    by rewrite decide_False by lia.
  - rewrite for_each_range_S, IH by lia. simpl.
    rewrite alg2_step_mk by lia. f_equal.
    apply mk_matrix_ext. intros n c Hn Hc.
    destruct (decide (c = j + 1 ∧ j + 1 ≤ n)) as [[-> Hle]|Hne].
    + rewrite decide_True by lia. rewrite <-column_value by lia.
      f_equal. f_equal. apply mk_vector_ext. intros c Hc'. f_equal.
      case_decide; [done|]. assert (c = 0) as -> by lia. apply Hf0. lia.
    + case_arith.
Qed.

Lemma alg2_from_mk (W : nat → nat → Qc) :
  alg2_from Delta N h lam (np.mk_matrix (N + 1) (N + 1) W)
  = Ok (np.mk_matrix (N + 1) (N + 1)
          (λ n c, if decide (c ≤ n) then fv n c else W n c)).
Proof.
  unfold alg2_from. rewrite H_matrix_mk, L_matrix_mk. simpl.
  rewrite !mk_matrix_nrows.
  rewrite (slice_col_mk_dims _ _ _ _ _ (N + 1)) by lia. simpl.
  rewrite (setitem_col_mk _ _ _ _ _ _ (N + 1)) by lia. simpl.
  rewrite alg2_loop_prefix; [| lia |].
  - f_equal. apply mk_matrix_ext. intros n c Hn Hc.
    destruct (decide (c = 0)) as [->|Hc0].
    + rewrite decide_False, !decide_True by lia.
      rewrite Nat.sub_0_r. apply H_column_0.
    + rewrite (decide_False (P := c = 0 ∧ _)) by lia.
      case_arith.
  - intros n Hn. rewrite decide_True by lia. rewrite Nat.sub_0_r. apply H_column_0.
Qed.

Lemma algorithm2_mk :
  algorithm2 Delta N h lam
  = Ok (np.mk_matrix (N + 1) (N + 1)
          (λ n c, if decide (c ≤ n) then fv n c else 0%Qc)).
Proof. unfold algorithm2. by rewrite zeros_mk, alg2_from_mk. Qed.

End algorithm2_result.

(** * The result vectors *)

Section results.
Variable Delta : Qc.
Variables h lam : Qc → Qc → Qc.

Local Abbreviation fv := (fval Delta h lam).

Lemma Qn_0 : Qn 0 = 0%Qc.
Proof. by apply Qc_is_canon. Qed.

(** The recurrence in closed notation: base case and convolution sum. *)
Lemma fval_0 n : fv n 0 = h (Qn n * Delta) (Qn n * Delta).
Proof. by rewrite fval_eq. Qed.

Lemma sum_from_to_mk i (f : nat → Qc) :
  sum_from_to 1 i f = np.sum (np.mk_vector i (λ k, f (1 + k))).
Proof.
  unfold sum_from_to, np.sum, np.mk_vector.
  replace (i + 1 - 1) with i by lia.
  by rewrite <-fmap_S_seq, <-list_fmap_compose.
Qed.

Lemma fval_S n i :
  1 ≤ i →
  fv n i
  = (h (Qn n * Delta) (Qn (n - i) * Delta)
     + Delta * sum_from_to 1 i
                 (λ k, fv n (i - k)%nat * lam (Qn k * Delta) (Qn (n - i) * Delta)))%Qc.
Proof.
  intros Hi. rewrite fval_eq at 1. unfold cell_value.
  rewrite decide_False by lia. f_equal.
  rewrite sum_from_to_mk, <-sum_mul_scalar, mul_scalar1_mk. f_equal.
  apply mk_vector_ext. intros k _. by rewrite (Qcmult_comm Delta).
Qed.

(** With a vanishing hazard kernel only the forcing term is left. *)
Lemma fval_zero_kernel n i :
  (∀ u τ, lam u τ = 0%Qc) →
  fv n i = h (Qn n * Delta) (Qn (n - i) * Delta).
Proof.
  intros Hlam. destruct (decide (i = 0)) as [->|Hi].
  - by rewrite fval_0, Nat.sub_0_r.
  - rewrite fval_S by lia.
    rewrite sum_from_to_mk, sum_mk_vector_zero; [ring|].
    intros k _. rewrite Hlam. ring.
Qed.

End results.

Lemma f_loop_mk T N h lam :
  1 ≤ N →
  f_loop T N h lam
  = Ok (np.mk_vector (N + 1) (λ n, fval (T / Qn N) h lam n n)).
Proof.
  intros HN. unfold f_loop, step_size. rewrite decide_False by lia. simpl.
  rewrite algorithm1_mk. simpl. rewrite diagonal_mk by lia. f_equal.
  rewrite Nat.min_id. apply mk_vector_ext. intros n _. by rewrite decide_True.
Qed.

Lemma f_vec_mk T N h lam :
  1 ≤ N →
  f_vec T N h lam
  = Ok (np.mk_vector (N + 1) (λ n, fval (T / Qn N) h lam n n)).
Proof.
  intros HN. unfold f_vec, step_size. rewrite decide_False by lia. simpl.
  rewrite algorithm2_mk. simpl. rewrite diagonal_mk by lia. f_equal.
  rewrite Nat.min_id. apply mk_vector_ext. intros n _. by rewrite decide_True.
Qed.

(** * The claims *)

(** C1. For every horizon [T] (in particular every [T > 0]), every step
    count [N ≥ 1] and all kernels [h] and [lam], Algorithm 1 and Algorithm 2
    both return, and the diagonal [f_vec] of [F] equals the diagonal
    [f_loop] of [fhat] entry by entry, exactly, in exact arithmetic. *)
Theorem algorithms_agree (T : Qc) (N : nat) (h lam : Qc → Qc → Qc) :
  1 ≤ N →
  ∃ v : np.vector,
    f_loop T N h lam = Ok v ∧ f_vec T N h lam = Ok v ∧ length v = N + 1.
Proof.
  intros HN. eexists. rewrite f_loop_mk, f_vec_mk by done.
  split; [done|]. split; [done|]. apply mk_vector_length.
Qed.

Lemma algorithms_agree_witness :
  1 ≤ 3 ∧
  ∃ v : np.vector,
    f_loop (Qn 2) 3 (λ t τ, t * τ + 1)%Qc (λ u τ, u - τ)%Qc = Ok v
    ∧ f_vec (Qn 2) 3 (λ t τ, t * τ + 1)%Qc (λ u τ, u - τ)%Qc = Ok v
    ∧ length v = 3 + 1.
Proof.
  split; [lia|]. apply (algorithms_agree (Qn 2) 3). lia.
Defined.

Lemma sum_from_to_ext a b (f g : nat → Qc) :
  (∀ k, a ≤ k ≤ b → f k = g k) → sum_from_to a b f = sum_from_to a b g.
Proof.
  intros E. unfold sum_from_to. f_equal.
  apply list_fmap_ext. intros j k [-> Hk]%lookup_seq. apply E. lia.
Qed.

(** C2. Algorithm 1 fills row [n] of [fhat] by
    [F[n][0] = h(nΔ, nΔ)] and, for [1 ≤ i ≤ n],
    [F[n][i] = h(nΔ, (n-i)Δ) + Δ · Σ_{k=1..i} F[n][i-k] · λ(kΔ, (n-i)Δ)],
    for every [n] in [0..N]; its result vector [f_loop] is the diagonal
    [F[n][n]]. *)
Theorem direct_solver_recurrence (T : Qc) (N : nat) (h lam : Qc → Qc → Qc) :
  1 ≤ N →
  let Delta := (T / Qn N)%Qc in
  ∃ F : np.matrix,
    algorithm1 Delta N h lam = Ok F
    ∧ (∀ n, n ≤ N → np.entry F n 0 = h (Qn n * Delta)%Qc (Qn n * Delta)%Qc)
    ∧ (∀ n i, n ≤ N → 1 ≤ i ≤ n →
         np.entry F n i
         = (h (Qn n * Delta) (Qn (n - i) * Delta)
            + Delta * sum_from_to 1 i
                (λ k, np.entry F n (i - k)%nat
                      * lam (Qn k * Delta) (Qn (n - i) * Delta)))%Qc)
    ∧ f_loop T N h lam = Ok (np.mk_vector (N + 1) (λ n, np.entry F n n)).
Proof.
  intros HN Delta. eexists. split; [apply algorithm1_mk|].
  split; [|split].
  - intros n Hn. rewrite mk_matrix_total, decide_True by lia. apply fval_0.
  - intros n i Hn Hi. rewrite mk_matrix_total, decide_True by lia.
    rewrite fval_S by lia. do 2 f_equal.
    apply sum_from_to_ext. intros k Hk.
    by rewrite mk_matrix_total, decide_True by lia.
  - rewrite f_loop_mk by done. f_equal. apply mk_vector_ext. intros n Hn.
    by rewrite mk_matrix_total, decide_True by lia.
Qed.

Lemma direct_solver_recurrence_witness :
  1 ≤ 2 ∧
  let Delta := (Qn 2 / Qn 2)%Qc in
  let h := (λ t τ : Qc, t) in
  let lam := (λ u τ : Qc, 1%Qc) in
  ∃ F : np.matrix,
    algorithm1 Delta 2 h lam = Ok F
    ∧ (∀ n, n ≤ 2 → np.entry F n 0 = h (Qn n * Delta)%Qc (Qn n * Delta)%Qc)
    ∧ (∀ n i, n ≤ 2 → 1 ≤ i ≤ n →
         np.entry F n i
         = (h (Qn n * Delta) (Qn (n - i) * Delta)
            + Delta * sum_from_to 1 i
                (λ k, np.entry F n (i - k)%nat
                      * lam (Qn k * Delta) (Qn (n - i) * Delta)))%Qc)
    ∧ f_loop (Qn 2) 2 h lam = Ok (np.mk_vector (2 + 1) (λ n, np.entry F n n)).
Proof.
  split; [lia|]. apply (direct_solver_recurrence (Qn 2) 2). lia.
Defined.

(** C3. Algorithm 2 sets column 0 of [F] to column 0 of [H] and, for every
    [i] in [0..N-1], column [i+1] of [F] on rows [i+1..N] is
    [H[i+1:, i+1] + rowwise_sum(F[i+1:, 0:i+1] ⊙ L[0:N-i, N-i-1:N])];
    [H[n][i] = h(nΔ, (n-i)Δ)] for [i ≤ n], [L] is [N × N] and its window
    holds [λ((i+1-c)Δ, (n-i-1)Δ)·Δ] at row [n-i-1], prefix column [c].
    (The notebook writes the window as [L[0:N-i, N-i-1:N+1]]; numpy clips
    the bound [N + 1] to [N].) *)
Theorem block_solver_recurrence (Delta : Qc) (N : nat) (h lam : Qc → Qc → Qc) :
  ∃ H L F : np.matrix,
    H_matrix Delta N h = Ok H ∧ L_matrix Delta N lam = Ok L
    ∧ algorithm2 Delta N h lam = Ok F
    ∧ np.shape H = (N + 1, N + 1) ∧ np.shape L = (N, N)
    ∧ np.slice_col 0 (N + 1) 0 F = np.slice_col 0 (N + 1) 0 H
    ∧ (∀ i, i < N →
         np.slice2 0 (N - i) (N - i - 1) (N + 1) L
         = np.slice2 0 (N - i) (N - i - 1) N L
         ∧ ∃ (B : np.matrix) (hcol : np.vector),
             np.binop Qcmult (np.slice2 (i + 1) (N + 1) 0 (i + 1) F)
                             (np.slice2 0 (N - i) (N - i - 1) N L) = Ok B
             ∧ np.slice_col (i + 1) (N + 1) (i + 1) H = Ok hcol
             ∧ np.slice_col (i + 1) (N + 1) (i + 1) F
               = np.binop1 Qcplus hcol (np.sum_rows B))
    ∧ (∀ n i, i ≤ n ≤ N →
         np.entry H n i = h (Qn n * Delta)%Qc (Qn (n - i) * Delta)%Qc)
    ∧ (∀ i n c, i < N → i + 1 ≤ n ≤ N → c ≤ i →
         np.entry L (n - i - 1) (N - i - 1 + c)
         = (lam (Qn (i + 1 - c) * Delta) (Qn (n - i - 1) * Delta) * Delta)%Qc).
Proof.
  do 3 eexists.
  split; [apply H_matrix_mk|]. split; [apply L_matrix_mk|].
  split; [apply algorithm2_mk|].
  split; [|split; [|split; [|split; [|split]]]].
  - unfold np.shape. by rewrite mk_matrix_nrows, mk_matrix_ncols by lia.
  - unfold np.shape. rewrite mk_matrix_nrows.
    destruct N; [done|]. by rewrite mk_matrix_ncols by lia.
  - rewrite !(slice_col_mk_dims _ _ _ _ _ (N + 1)) by lia. f_equal.
    apply mk_vector_ext. intros n Hn. rewrite decide_True by lia.
    symmetry. apply H_column_0.
  - intros i Hi.
    rewrite (mk_matrix_slice2_dims _ (N + 1) _ _ (N + 1) _ (N - i) (i + 1)) by lia.
    rewrite !(mk_matrix_slice2_dims _ _ _ _ N _ (N - i) (i + 1)) by lia.
    split; [done|]. do 2 eexists.
    rewrite binop_mk.
    rewrite !(slice_col_mk_dims _ _ _ _ _ (N - i)) by lia.
    split; [done|]. split; [done|].
    rewrite sum_rows_mk, binop1_mk. f_equal.
    apply mk_vector_ext. intros n Hn.
    rewrite decide_True by lia.
    rewrite <-(column_value Delta N) by lia.
    replace (i + 1 + n - (i + 1)) with n by lia.
    do 2 f_equal. apply mk_vector_ext. intros c Hc. simpl.
    by rewrite decide_True by lia.
  - intros n i Hn. rewrite mk_matrix_total by lia.
    unfold lag. rewrite decide_True by lia. by rewrite !(Qcmult_comm Delta).
  - intros i n c Hi Hn Hc. rewrite mk_matrix_total by lia.
    replace (N - (N - i - 1 + c)) with (i + 1 - c) by lia.
    by rewrite !(Qcmult_comm Delta).
Qed.

(** C4, as stated: with [λ ≡ 0] the result vector would be
    [h(nΔ, nΔ)] at every [n].  It fails at [n = 1] for [h(t, τ) = τ],
    [T = 1], [N = 1]: both solvers return [h(Δ, 0) = 0], not [h(Δ, Δ) = 1]. *)
Lemma degenerate_kernel_counterexample :
  let h := (λ t τ : Qc, τ) in
  let lam := (λ u τ : Qc, 0%Qc) in
  let Delta := (1 / Qn 1)%Qc in
  (∀ u τ, lam u τ = 0%Qc)
  ∧ ∃ v : np.vector,
      f_loop 1 1 h lam = Ok v ∧ f_vec 1 1 h lam = Ok v
      ∧ v !! 1 = Some 0%Qc
      ∧ v !! 1 ≠ Some (h (Qn 1 * Delta) (Qn 1 * Delta))%Qc.
Proof.
  intros h lam Delta. split; [done|]. eexists.
  rewrite f_loop_mk, f_vec_mk by lia.
  split; [done|]. split; [done|].
  assert (fval (1 / Qn 1) h lam 1 1 = 0%Qc) as E.
  { rewrite fval_zero_kernel by done. unfold h. rewrite Nat.sub_diag, Qn_0. ring. }
  rewrite mk_vector_lookup, decide_True, E by lia.
  split; [done|].
  by intros [=].
Qed.

(** C4, amended. If [λ ≡ 0] then for every [n] in [0..N] both result
    vectors hold exactly [h(nΔ, 0)]: the diagonal entry [F[n][n]] has lag
    [(n - n)Δ = 0]. *)
Theorem degenerate_kernel (T : Qc) (N : nat) (h lam : Qc → Qc → Qc) :
  1 ≤ N → (∀ u τ, lam u τ = 0%Qc) →
  let Delta := (T / Qn N)%Qc in
  f_loop T N h lam = Ok (np.mk_vector (N + 1) (λ n, h (Qn n * Delta)%Qc 0%Qc))
  ∧ f_vec T N h lam = Ok (np.mk_vector (N + 1) (λ n, h (Qn n * Delta)%Qc 0%Qc)).
Proof.
  intros HN Hlam Delta.
  assert (∀ n, fval Delta h lam n n = h (Qn n * Delta)%Qc 0%Qc) as E.
  { intros n. rewrite fval_zero_kernel by done.
    rewrite Nat.sub_diag, Qn_0. f_equal. ring. }
  rewrite f_loop_mk, f_vec_mk by done.
  split; f_equal; apply mk_vector_ext; intros n _; apply E.
Qed.

Lemma degenerate_kernel_witness :
  1 ≤ 2 ∧ (∀ u τ : Qc, (λ _ _ : Qc, 0%Qc) u τ = 0%Qc) ∧
  let Delta := (Qn 3 / Qn 2)%Qc in
  f_loop (Qn 3) 2 (λ t τ, t + τ)%Qc (λ _ _, 0%Qc)
    = Ok (np.mk_vector (2 + 1) (λ n, (λ t τ, t + τ)%Qc (Qn n * Delta)%Qc 0%Qc))
  ∧ f_vec (Qn 3) 2 (λ t τ, t + τ)%Qc (λ _ _, 0%Qc)
    = Ok (np.mk_vector (2 + 1) (λ n, (λ t τ, t + τ)%Qc (Qn n * Delta)%Qc 0%Qc)).
Proof.
  split; [lia|]. split; [reflexivity|].
  apply (degenerate_kernel (Qn 3) 2 (λ t τ, t + τ)%Qc (λ _ _, 0%Qc)); [lia|reflexivity].
Defined.

(** C8. With [N = 4], [T = 4] (so [Δ = 1]), [h ≡ 1] and [λ ≡ 0], both
    solvers return exactly [[1, 1, 1, 1, 1]]. *)
Theorem concrete_scenario :
  f_loop (Qn 4) 4 (λ _ _, 1%Qc) (λ _ _, 0%Qc) = Ok [1; 1; 1; 1; 1]%Qc
  ∧ f_vec (Qn 4) 4 (λ _ _, 1%Qc) (λ _ _, 0%Qc) = Ok [1; 1; 1; 1; 1]%Qc.
Proof.
  rewrite f_loop_mk, f_vec_mk by lia.
  assert (∀ n, fval (Qn 4 / Qn 4) (λ _ _, 1%Qc) (λ _ _, 0%Qc) n n = 1%Qc) as E.
  { intros n. by rewrite fval_zero_kernel. }
  unfold np.mk_vector. simpl. by rewrite !E.
Qed.

(** C9. For every [T], [N ≥ 1], [h] and [λ], the first entry of both result
    vectors is exactly [h(0, 0)]: the base case of Algorithm 1 at [n = 0],
    and entry [[0, 0]] of [H], copied into column 0 of [F], for
    Algorithm 2. *)
Theorem boundary_value (T : Qc) (N : nat) (h lam : Qc → Qc → Qc) :
  1 ≤ N →
  ∃ (v1 v2 : np.vector) (H : np.matrix),
    f_loop T N h lam = Ok v1 ∧ f_vec T N h lam = Ok v2
    ∧ H_matrix (T / Qn N) N h = Ok H
    ∧ v1 !! 0 = Some (h 0 0)%Qc ∧ v2 !! 0 = Some (h 0 0)%Qc
    ∧ np.entry H 0 0 = (h 0 0)%Qc.
Proof.
  intros HN. do 3 eexists.
  rewrite f_loop_mk, f_vec_mk by done.
  split; [done|]. split; [done|]. split; [apply H_matrix_mk|].
  assert (fval (T / Qn N) h lam 0 0 = h 0%Qc 0%Qc) as E.
  { rewrite fval_0, Qn_0. f_equal; ring. }
  rewrite mk_vector_lookup, decide_True, E by lia.
  split; [done|]. split; [done|].
  rewrite mk_matrix_total by lia. unfold lag. simpl. rewrite Qn_0. f_equal; ring.
Qed.

Lemma boundary_value_witness :
  1 ≤ 3 ∧
  ∃ (v1 v2 : np.vector) (H : np.matrix),
    f_loop (Qn 5) 3 (λ t τ, t - τ + 2)%Qc (λ u τ, u * τ)%Qc = Ok v1
    ∧ f_vec (Qn 5) 3 (λ t τ, t - τ + 2)%Qc (λ u τ, u * τ)%Qc = Ok v2
    ∧ H_matrix (Qn 5 / Qn 3) 3 (λ t τ, t - τ + 2)%Qc = Ok H
    ∧ v1 !! 0 = Some ((λ t τ, t - τ + 2) 0 0)%Qc
    ∧ v2 !! 0 = Some ((λ t τ, t - τ + 2) 0 0)%Qc
    ∧ np.entry H 0 0 = ((λ t τ, t - τ + 2) 0 0)%Qc.
Proof.
  split; [lia|].
  apply (boundary_value (Qn 5) 3 (λ t τ, t - τ + 2)%Qc (λ u τ, u * τ)%Qc). lia.
Defined.

Lemma alg1_row_wf Delta h lam r c (W : np.matrix) n :
  np.is_matrix r c W → n < r → n < c →
  alg1_row Delta h lam n W
  = Ok (np.mk_matrix r c
          (λ n' i, if decide (n' = n ∧ i ≤ n) then fval Delta h lam n i
                   else np.entry W n' i)).
Proof.
  intros HW Hn Hc. rewrite (is_matrix_eta r c W HW) at 1. by apply alg1_row_mk.
Qed.

Lemma alg1_rows_wf Delta h lam r c (W : np.matrix) rows :
  np.is_matrix r c W → Forall (λ n, n < r ∧ n < c) rows →
  alg1_rows Delta h lam rows W
  = Ok (np.mk_matrix r c
          (λ n i, if decide (n ∈ rows ∧ i ≤ n) then fval Delta h lam n i
                  else np.entry W n i)).
Proof.
  intros HW Hrows. rewrite (is_matrix_eta r c W HW) at 1. by apply alg1_rows_mk.
Qed.

Lemma is_matrix_lookup r c (M : np.matrix) n :
  np.is_matrix r c M → n < r → M !! n = Some (np.mk_vector c (np.entry M n)).
Proof.
  intros HM Hn. rewrite (is_matrix_eta r c M HM) at 1. by apply mk_matrix_lookup.
Qed.

Lemma entry_lookup (M1 M2 : np.matrix) n i :
  M1 !! n = M2 !! n → np.entry M1 n i = np.entry M2 n i.
Proof.
  intros E. unfold np.entry. by rewrite !list_lookup_total_alt, E.
Qed.

(** C5. In Algorithm 1 the computation of row [n] reads row [n] only: the
    inner loop run on two working arrays that agree on row [n] (and differ
    anywhere else) leaves the same row [n], and leaves every other row as it
    was; the values [F[n][0..n]] are [fval Delta h lam n], a function of [n],
    [Δ], [h] and [λ] alone, whatever the initial contents of the arrays and
    in whatever order the rows are processed. *)
Theorem row_independence (Delta : Qc) (N : nat) (h lam : Qc → Qc → Qc)
    (W1 W2 : np.matrix) (rows1 rows2 : list nat) (n : nat) :
  np.is_matrix (N + 1) (N + 1) W1 → np.is_matrix (N + 1) (N + 1) W2 →
  Forall (λ m, m ≤ N) rows1 → Forall (λ m, m ≤ N) rows2 →
  n ∈ rows1 → n ∈ rows2 →
  (∃ G1 G2 : np.matrix,
     alg1_row Delta h lam n W1 = Ok G1 ∧ alg1_row Delta h lam n W2 = Ok G2
     ∧ (W1 !! n = W2 !! n → G1 !! n = G2 !! n)
     ∧ (∀ m, m ≠ n → G1 !! m = W1 !! m ∧ G2 !! m = W2 !! m))
  ∧ (∃ F1 F2 : np.matrix,
       alg1_rows Delta h lam rows1 W1 = Ok F1
       ∧ alg1_rows Delta h lam rows2 W2 = Ok F2
       ∧ (∀ i, i ≤ n →
            np.entry F1 n i = np.entry F2 n i
            ∧ np.entry F1 n i = fval Delta h lam n i)
       ∧ (W1 !! n = W2 !! n → F1 !! n = F2 !! n)).
Proof.
  intros HW1 HW2 Hrows1 Hrows2 Hn1 Hn2.
  assert (n ≤ N) as Hn by (by eapply Forall_forall in Hrows1).
  assert (∀ rows, Forall (λ m, m ≤ N) rows →
                  Forall (λ m, m < N + 1 ∧ m < N + 1) rows) as Hlt.
  { intros rows Hrows. eapply Forall_impl; [exact Hrows|]. simpl. lia. }
  split.
  - do 2 eexists.
    rewrite (alg1_row_wf _ _ _ (N + 1) (N + 1) W1) by (done || lia).
    rewrite (alg1_row_wf _ _ _ (N + 1) (N + 1) W2) by (done || lia).
    split; [done|]. split; [done|]. split.
    + intros E. rewrite !mk_matrix_lookup by lia. f_equal.
      apply mk_vector_ext. intros i _. case_decide; [done|]. by apply entry_lookup.
    + intros m Hm. destruct (decide (m < N + 1)) as [Hlt'|Hge].
      * rewrite !mk_matrix_lookup by done.
        rewrite (is_matrix_lookup _ _ W1 m HW1), (is_matrix_lookup _ _ W2 m HW2) by done.
        split; f_equal; apply mk_vector_ext; intros i _;
          by rewrite decide_False by lia.
      * destruct HW1 as [HW1 _], HW2 as [HW2 _].
        rewrite !lookup_ge_None_2; [done|..];
          unfold np.mk_matrix; rewrite ?mk_vector_length; lia.
  - do 2 eexists.
    rewrite (alg1_rows_wf _ _ _ (N + 1) (N + 1) W1) by auto.
    rewrite (alg1_rows_wf _ _ _ (N + 1) (N + 1) W2) by auto.
    split; [done|]. split; [done|]. split.
    + intros i Hi. rewrite !mk_matrix_total by lia.
      by rewrite !decide_True by done.
    + intros E. rewrite !mk_matrix_lookup by lia. f_equal.
      apply mk_vector_ext. intros i _.
      destruct (decide (i ≤ n)).
      * by rewrite !decide_True by done.
      * rewrite !decide_False by tauto. by apply entry_lookup.
Qed.

Lemma row_independence_witness :
  let W1 := np.zeros 3 3 in
  let W2 := [[1; 2; 2]; [0; 0; 0]; [2; 1; 1]]%Qc in
  let h := (λ t τ, t + τ)%Qc in
  let lam := (λ u τ, u * τ + 1)%Qc in
  ∃ F1 F2 : np.matrix,
    alg1_rows 1 h lam [0; 1; 2] W1 = Ok F1
    ∧ alg1_rows 1 h lam [2; 1] W2 = Ok F2
    ∧ (∀ i, i ≤ 1 →
         np.entry F1 1 i = np.entry F2 1 i ∧ np.entry F1 1 i = fval 1 h lam 1 i)
    ∧ (W1 !! 1 = W2 !! 1 → F1 !! 1 = F2 !! 1).
Proof.
  intros W1 W2 h lam.
  refine (proj2 (row_independence 1 2 h lam W1 W2 [0; 1; 2] [2; 1] 1 _ _ _ _ _ _)).
  - split; [reflexivity | repeat constructor].
  - split; [reflexivity | repeat constructor].
  - repeat constructor; lia.
  - repeat constructor; lia.
  - repeat constructor.
  - repeat constructor.
Defined.



(** The elementwise product raises when the row counts cannot be
    broadcast. *)
Lemma binop_rows_mismatch op (A B : np.matrix) :
  np.nrows A ≠ np.nrows B → np.nrows A ≠ 1 → np.nrows B ≠ 1 →
  np.binop op A B = Raise ValueError.
Proof.
  intros Hne HA HB. unfold np.binop, np.broadcast_dim.
  by repeat case_decide.
Qed.

(** C7, as stated: Algorithm 2 would check that the prefix slice and the
    window slice have matching shapes and raise on any inconsistency.  It
    does not: with [N = 2] and a [1 × 1] matrix [L], in iteration [i = 1]
    the prefix slice has shape [1 × 2] and the window slice shape [1 × 1],
    and the product, the column update and the whole cell return without
    raising (the window is stretched by broadcasting). *)
Lemma shape_assertion_counterexample :
  let H := [[1; 1; 1]; [1; 1; 1]; [1; 1; 1]]%Qc in
  let L := [[2]]%Qc in
  let F := [[1; 0; 0]; [1; 2; 0]; [1; 2; 0]]%Qc in
  np.shape (np.slice2 (1 + 1) (2 + 1) 0 (1 + 1) F) = (1, 2)
  ∧ np.shape (np.slice2 0 (2 - 1) (2 - 1 - 1) (2 + 1) L) = (1, 1)
  ∧ (∃ B : np.matrix,
       np.binop Qcmult (np.slice2 (1 + 1) (2 + 1) 0 (1 + 1) F)
                       (np.slice2 0 (2 - 1) (2 - 1 - 1) (2 + 1) L) = Ok B)
  ∧ (∃ F' : np.matrix, alg2_step 2 H L 1 F = Ok F')
  ∧ (∃ F' : np.matrix, alg2_with 2 H L (np.zeros 3 3) = Ok F').
Proof.
  intros H L F.
  split; [reflexivity|]. split; [reflexivity|].
  split; [eexists; vm_compute; reflexivity|].
  split; eexists; vm_compute; reflexivity.
Qed.

(** C7, amended.  Algorithm 2 has no shape assertion of its own.  Under
    [N ≥ 1], in every iteration [i = 0..N-1] the prefix slice
    [F[i+1:, 0:i+1]] and the window slice of [L] both have shape
    [(N - i) × (i + 1)], so the elementwise product does not raise and the
    whole algorithm returns without an error. *)
Theorem slices_match (Delta : Qc) (N : nat) (h lam : Qc → Qc → Qc) :
  1 ≤ N →
  ∃ L : np.matrix,
    L_matrix Delta N lam = Ok L
    ∧ (∀ (F : np.matrix) (i : nat),
         np.is_matrix (N + 1) (N + 1) F → i < N →
         np.shape (np.slice2 (i + 1) (N + 1) 0 (i + 1) F) = (N - i, i + 1)
         ∧ np.shape (np.slice2 0 (N - i) (N - i - 1) (N + 1) L) = (N - i, i + 1)
         ∧ ∃ B : np.matrix,
             np.binop Qcmult (np.slice2 (i + 1) (N + 1) 0 (i + 1) F)
                             (np.slice2 0 (N - i) (N - i - 1) (N + 1) L) = Ok B
             ∧ np.shape B = (N - i, i + 1))
    ∧ (∃ F : np.matrix, algorithm2 Delta N h lam = Ok F)
    ∧ (∀ e, algorithm2 Delta N h lam ≠ Raise e).
Proof.
  intros HN. eexists. split; [apply L_matrix_mk|]. split; [|split].
  - intros F i HF Hi. rewrite (is_matrix_eta _ _ F HF).
    rewrite (mk_matrix_slice2_dims _ _ _ _ (N + 1) _ (N - i) (i + 1)) by lia.
    rewrite (mk_matrix_slice2_dims _ _ _ _ N _ (N - i) (i + 1)) by lia.
    rewrite binop_mk. unfold np.shape.
    rewrite !mk_matrix_nrows, !mk_matrix_ncols by lia.
    split; [done|]. split; [done|]. eexists. split; [done|].
    by rewrite !mk_matrix_nrows, !mk_matrix_ncols by lia.
  - eexists. apply algorithm2_mk.
  - intros e. by rewrite algorithm2_mk.
Qed.

Lemma slices_match_witness :
  1 ≤ 3 ∧
  ∃ L : np.matrix,
    L_matrix 1 3 (λ u τ, u + τ)%Qc = Ok L
    ∧ (∀ (F : np.matrix) (i : nat),
         np.is_matrix (3 + 1) (3 + 1) F → i < 3 →
         np.shape (np.slice2 (i + 1) (3 + 1) 0 (i + 1) F) = (3 - i, i + 1)
         ∧ np.shape (np.slice2 0 (3 - i) (3 - i - 1) (3 + 1) L) = (3 - i, i + 1)
         ∧ ∃ B : np.matrix,
             np.binop Qcmult (np.slice2 (i + 1) (3 + 1) 0 (i + 1) F)
                             (np.slice2 0 (3 - i) (3 - i - 1) (3 + 1) L) = Ok B
             ∧ np.shape B = (3 - i, i + 1))
    ∧ (∃ F : np.matrix, algorithm2 1 3 (λ t τ, t)%Qc (λ u τ, u + τ)%Qc = Ok F)
    ∧ (∀ e, algorithm2 1 3 (λ t τ, t)%Qc (λ u τ, u + τ)%Qc ≠ Raise e).
Proof.
  split; [lia|]. apply (slices_match 1 3 (λ t τ, t)%Qc (λ u τ, u + τ)%Qc). lia.
Defined.

Lemma alg1_from_wf Delta N h lam (W : np.matrix) :
  np.is_matrix (N + 1) (N + 1) W →
  alg1_from Delta N h lam W
  = Ok (np.mk_matrix (N + 1) (N + 1)
          (λ n i, if decide (i ≤ n) then fval Delta h lam n i else np.entry W n i)).
Proof. intros HW. rewrite (is_matrix_eta _ _ W HW) at 1. apply alg1_from_mk. Qed.

Lemma alg2_from_wf Delta N h lam (W : np.matrix) :
  np.is_matrix (N + 1) (N + 1) W →
  alg2_from Delta N h lam W
  = Ok (np.mk_matrix (N + 1) (N + 1)
          (λ n i, if decide (i ≤ n) then fval Delta h lam n i else np.entry W n i)).
Proof. intros HW. rewrite (is_matrix_eta _ _ W HW) at 1. apply alg2_from_mk. Qed.

(** C10. After either algorithm completes, every entry strictly above the
    diagonal of its working array ([fhat], [F]) still holds its initial
    value 0; and the result does not depend on those entries: started on
    any working array [W] of the same shape, each algorithm leaves the
    entries above the diagonal as they were in [W] and returns the same
    diagonal. *)
Theorem upper_triangle_frame (Delta : Qc) (N : nat) (h lam : Qc → Qc → Qc) :
  ∃ fhat F : np.matrix,
    algorithm1 Delta N h lam = Ok fhat ∧ algorithm2 Delta N h lam = Ok F
    ∧ (∀ n i, n < i ≤ N → np.entry fhat n i = 0%Qc ∧ np.entry F n i = 0%Qc)
    ∧ (∀ W : np.matrix,
         np.is_matrix (N + 1) (N + 1) W →
         ∃ fhat' F' : np.matrix,
           alg1_from Delta N h lam W = Ok fhat'
           ∧ alg2_from Delta N h lam W = Ok F'
           ∧ (∀ n i, n < i ≤ N →
                np.entry fhat' n i = np.entry W n i
                ∧ np.entry F' n i = np.entry W n i)
           ∧ np.diagonal fhat' = np.diagonal fhat
           ∧ np.diagonal F' = np.diagonal F).
Proof.
  do 2 eexists. split; [apply algorithm1_mk|]. split; [apply algorithm2_mk|].
  split.
  - intros n i Hni. rewrite !mk_matrix_total by lia.
    by rewrite !decide_False by lia.
  - intros W HW. do 2 eexists.
    split; [by apply alg1_from_wf|]. split; [by apply alg2_from_wf|]. split.
    + intros n i Hni. rewrite !mk_matrix_total by lia.
      by rewrite !decide_False by lia.
    + rewrite !diagonal_mk by lia.
      split; apply mk_vector_ext; intros n _; by rewrite !decide_True.
Qed.

(** * Running the model *)

(** The second scenario of the specification: [N = 2], [T = 2],
    [h(t, τ) = t], [λ ≡ 1]. *)
Example scenario_2_loop :
  run_values (f_loop 2 2 (λ t _, t) (λ _ _, 1%Qc)) = Some [0; 2; 8]%Q.
Proof. vm_compute. reflexivity. Qed.

Example scenario_2_vec :
  run_values (f_vec 2 2 (λ t _, t) (λ _ _, 1%Qc)) = Some [0; 2; 8]%Q.
Proof. vm_compute. reflexivity. Qed.

Example step_size_zero : step_size 1 0 = Raise ZeroDivisionError.
Proof. reflexivity. Qed.

Example getitem_out_of_bounds : np.getitem (np.zeros 2 2) 0 2 = Raise IndexError.
Proof. reflexivity. Qed.

Example binop_shape_mismatch :
  np.binop Qcmult (np.zeros 2 3) (np.zeros 3 2) = Raise ValueError.
Proof. reflexivity. Qed.

(** * Further properties of the notebook *)

(** ** The grid *)

Lemma Qn_nonneg k : (0 ≤ Qn k)%Qc.
Proof. unfold Qn. rewrite <-Z2Qc_inj_0. apply (proj1 (Z2Qc_inj_le _ _)). lia. Qed.

Lemma Qn_lt j k : j < k → (Qn j < Qn k)%Qc.
Proof. intros Hjk. unfold Qn. apply (proj1 (Z2Qc_inj_lt _ _)). lia. Qed.

Lemma grid_mk Delta N : grid Delta N = np.mk_vector (N + 1) (λ k, Delta * Qn k)%Qc.
Proof.
  unfold grid, np.scale1. rewrite arange_mk, mk_vector_fmap.
  by rewrite Nat.sub_0_r.
Qed.

(** X3. For a positive step the grid is strictly increasing. *)
Theorem grid_increasing (Delta : Qc) (N j k : nat) :
  (0 < Delta)%Qc → j < k → k ≤ N →
  (grid Delta N !!! j < grid Delta N !!! k)%Qc.
Proof.
  intros HD Hjk Hk. rewrite grid_mk, !mk_vector_total by lia.
  apply Qcmult_lt_mono_pos_l; [done|]. by apply Qn_lt.
Qed.

Lemma grid_increasing_witness :
  (0 < 1)%Qc ∧ 1 < 3 ∧ 3 ≤ 5 ∧ (grid 1 5 !!! 1%nat < grid 1 5 !!! 3%nat)%Qc.
Proof.
  assert (0 < 1)%Qc as H01 by reflexivity.
  split; [exact H01|]. split; [lia|]. split; [lia|].
  apply (grid_increasing 1 5 1 3 H01); lia.
Defined.

(** X4. Every entry of [H] and [L] is a kernel value at grid points:
    [H[n][i] = h(grid[n], grid[|n - i|])] on the whole square, so the part
    of [H] above the diagonal is not zero but [h] at the mirrored lag; and
    [L[j][k] = lam(grid[N - k], grid[j]) * Delta] on the whole square,
    including the part below the diagonal. *)
Theorem kernel_matrices_on_grid (Delta : Qc) (N : nat) (h lam : Qc → Qc → Qc) :
  ∃ H L : np.matrix,
    H_matrix Delta N h = Ok H ∧ L_matrix Delta N lam = Ok L
    ∧ np.is_matrix (N + 1) (N + 1) H ∧ np.is_matrix N N L
    ∧ (∀ n i, n ≤ N → i ≤ N →
         np.entry H n i = h (grid Delta N !!! n) (grid Delta N !!! lag n i))
    ∧ (∀ j k, j < N → k < N →
         np.entry L j k
         = (lam (grid Delta N !!! (N - k)%nat) (grid Delta N !!! j) * Delta)%Qc).
Proof.
  do 2 eexists. split; [apply H_matrix_mk|]. split; [apply L_matrix_mk|].
  split; [apply is_matrix_mk|]. split; [apply is_matrix_mk|].
  rewrite grid_mk. split.
  - intros n i Hn Hi. rewrite !mk_matrix_total by lia.
    assert (lag n i ≤ N) by (unfold lag; case_decide; lia).
    by rewrite !mk_vector_total by lia.
  - intros j k Hj Hk. rewrite mk_matrix_total by lia.
    by rewrite !mk_vector_total by lia.
Qed.

(** ** The working arrays *)

(** X5. For every [N], also [N = 0], both algorithms return, their working
    arrays are dense [(N + 1) × (N + 1)] arrays, and the two arrays are
    equal in every entry, not only on the diagonal. *)
Theorem working_arrays_equal (Delta : Qc) (N : nat) (h lam : Qc → Qc → Qc) :
  ∃ F : np.matrix,
    algorithm1 Delta N h lam = Ok F ∧ algorithm2 Delta N h lam = Ok F
    ∧ np.is_matrix (N + 1) (N + 1) F.
Proof.
  eexists. rewrite algorithm1_mk, algorithm2_mk.
  split; [done|]. split; [done|]. apply is_matrix_mk.
Qed.

Lemma setitem_mk_row_oob r c (f : nat → nat → Qc) n i v :
  r ≤ n → np.setitem (np.mk_matrix r c f) n i v = Raise IndexError.
Proof.
  intros Hn. unfold np.setitem. rewrite lookup_ge_None_2; [done|].
  unfold np.mk_matrix. rewrite mk_vector_length. lia.
Qed.

Lemma setitem_mk_col_oob r c (f : nat → nat → Qc) n i v :
  n < r → c ≤ i → np.setitem (np.mk_matrix r c f) n i v = Raise IndexError.
Proof.
  intros Hn Hi. unfold np.setitem. rewrite mk_matrix_lookup by done.
  rewrite mk_vector_length. by rewrite decide_False by lia.
Qed.

Lemma alg1_cell_row_oob Delta h lam r c (f : nat → nat → Qc) n :
  r ≤ n → alg1_cell Delta h lam n 0 (np.mk_matrix r c f) = Raise IndexError.
Proof. intros Hn. unfold alg1_cell. simpl. by apply setitem_mk_row_oob. Qed.

Lemma alg1_cell_col_oob Delta h lam r c (f : nat → nat → Qc) n :
  n < r → alg1_cell Delta h lam n c (np.mk_matrix r c f) = Raise IndexError.
Proof.
  intros Hn. unfold alg1_cell.
  destruct (decide (c = 0)) as [->|Hc]; [by apply setitem_mk_col_oob|].
  rewrite arange_mk, mk_vector_fmap.
  replace (c + 1 - 1) with c by lia.
  rewrite getitems_mk; [|done|].
  2:{ apply Forall_forall. intros x [k [-> Hk]]%list_elem_of_fmap.
      apply list_elem_of_fmap in Hk as [j [-> _]]. lia. }
  simpl. rewrite !mk_vector_fmap, binop1_mk. simpl.
  by apply setitem_mk_col_oob.
Qed.

(** X6. The inner loop of Algorithm 1 needs a working array with more than
    [n] rows and more than [n] columns: on any smaller dense array it
    raises [IndexError]. *)
Theorem alg1_row_index_error (Delta : Qc) (h lam : Qc → Qc → Qc)
    (r c : nat) (W : np.matrix) (n : nat) :
  np.is_matrix r c W → ¬ (n < r ∧ n < c) →
  alg1_row Delta h lam n W = Raise IndexError.
Proof.
  intros HW Hn. rewrite (is_matrix_eta r c W HW). unfold alg1_row.
  destruct (decide (n < r)) as [Hr|Hr].
  - assert (c ≤ n) as Hc by lia.
    unfold np.range. replace (n + 1) with (c + S (n - c)) by lia.
    rewrite seq_app, for_each_app.
    change (seq 0 c) with (np.range c).
    rewrite alg1_row_prefix by lia. simpl.
    by rewrite alg1_cell_col_oob.
  - unfold np.range. replace (n + 1) with (S n) by lia. simpl.
    by rewrite alg1_cell_row_oob by lia.
Qed.

Lemma alg1_row_index_error_witness :
  alg1_row 1 (λ t τ, t)%Qc (λ u τ, u)%Qc 2 (np.zeros 2 2) = Raise IndexError.
Proof.
  apply (alg1_row_index_error 1 (λ t τ, t)%Qc (λ u τ, u)%Qc 2 2 (np.zeros 2 2) 2).
  - split; [reflexivity | repeat constructor].
  - lia.
Defined.

Section algorithm2_unread.
Variable Delta : Qc.
Variable N : nat.
Variables h lam : Qc → Qc → Qc.

Local Abbreviation fv := (fval Delta h lam).
Local Abbreviation Hf := (λ n i : nat, h (Delta * Qn n) (Delta * Qn (lag n i)))%Qc.
Local Abbreviation Lf := (λ j k : nat, lam (Delta * Qn (N - k)) (Delta * Qn j) * Delta)%Qc.

(** The loop of Algorithm 2 on kernel matrices that are only known where
    the loop reads them. *)
Lemma alg2_loop_prefix_read (Hf' Lf' f : nat → nat → Qc) j :
  j ≤ N →
  (∀ n c, c ≤ n ≤ N → Hf' n c = Hf n c) →
  (∀ r k, r ≤ k < N → Lf' r k = Lf r k) →
  (∀ n, n ≤ N → f n 0 = fv n 0) →
  for_each (alg2_step N (np.mk_matrix (N + 1) (N + 1) Hf') (np.mk_matrix N N Lf'))
    (np.range j) (np.mk_matrix (N + 1) (N + 1) f)
  = Ok (np.mk_matrix (N + 1) (N + 1)
          (λ n c, if decide (1 ≤ c ≤ j ∧ c ≤ n) then fv n c else f n c)).
Proof.
  intros Hj HH HL Hf0. induction j as [|j IH].
  - simpl. f_equal. apply mk_matrix_ext. intros n c _ _.
    by rewrite decide_False by lia.
  - rewrite for_each_range_S, IH by lia. simpl.
    rewrite alg2_step_mk by lia. f_equal.
    apply mk_matrix_ext. intros n c Hn Hc.
    destruct (decide (c = j + 1 ∧ j + 1 ≤ n)) as [[-> Hle]|Hne].
    + rewrite decide_True by lia. rewrite <-(column_value Delta N) by lia.
      rewrite HH by lia. f_equal. f_equal.
      apply mk_vector_ext. intros c Hc'. rewrite HL by lia. f_equal.
      case_decide; [done|]. assert (c = 0) as -> by lia. apply Hf0. lia.
    + case_arith.
Qed.

End algorithm2_unread.

(** X7. Algorithm 2 reads [H] only on and below the diagonal and [L] only
    on and above the diagonal: run on any dense matrices [H'] and [L'] that
    hold the kernel values there (for instance zero padded elsewhere, as in
    the paper), the cell returns the same array as with the notebook's
    [H] and [L]. *)
Theorem unread_parts_immaterial (Delta : Qc) (N : nat) (h lam : Qc → Qc → Qc)
    (H' L' W : np.matrix) :
  np.is_matrix (N + 1) (N + 1) H' → np.is_matrix N N L' →
  np.is_matrix (N + 1) (N + 1) W →
  (∀ n i, i ≤ n ≤ N →
     np.entry H' n i = h (Delta * Qn n)%Qc (Delta * Qn (n - i))%Qc) →
  (∀ j k, j ≤ k < N →
     np.entry L' j k = (lam (Delta * Qn (N - k)) (Delta * Qn j) * Delta)%Qc) →
  alg2_with N H' L' W = alg2_from Delta N h lam W.
Proof.
  intros HH' HL' HW EH EL. rewrite alg2_from_wf by done.
  unfold alg2_with.
  rewrite (is_matrix_eta _ _ H' HH'), (is_matrix_eta _ _ L' HL'),
    (is_matrix_eta _ _ W HW).
  rewrite !mk_matrix_nrows.
  rewrite (slice_col_mk_dims _ _ _ _ _ (N + 1)) by lia. simpl.
  rewrite (setitem_col_mk _ _ _ _ _ _ (N + 1)) by lia. simpl.
  assert (∀ n, n ≤ N → np.entry H' n 0 = fval Delta h lam n 0) as E0.
  { intros n Hn. rewrite EH by lia. rewrite fval_0, Nat.sub_0_r.
    by rewrite (Qcmult_comm Delta). }
  rewrite (alg2_loop_prefix_read Delta N h lam).
  - f_equal. apply mk_matrix_ext. intros n c Hn Hc.
    rewrite ?mk_matrix_total by lia.
    destruct (decide (c = 0)) as [->|Hc0].
    + rewrite decide_False, !decide_True by lia.
      rewrite Nat.sub_0_r. apply E0. lia.
    + rewrite (decide_False (P := c = 0 ∧ _)) by lia. case_arith.
  - lia.
  - intros n c Hnc. rewrite ?mk_matrix_total by lia. rewrite EH by lia.
    unfold lag. by rewrite decide_True by lia.
  - intros r k Hrk. rewrite ?mk_matrix_total by lia. by apply EL.
  - intros n Hn. rewrite decide_True by lia. rewrite ?mk_matrix_total by lia.
    rewrite Nat.sub_0_r. by apply E0.
Qed.

Lemma unread_parts_immaterial_witness :
  let h := (λ t τ, t + τ)%Qc in
  let lam := (λ u τ, u * τ + 1)%Qc in
  let H' := np.mk_matrix 3 3
              (λ n i, if decide (i ≤ n)%nat then h (1 * Qn n) (1 * Qn (n - i)) else 0)%Qc in
  let L' := np.mk_matrix 2 2
              (λ j k, if decide (j ≤ k)%nat then lam (1 * Qn (2 - k)) (1 * Qn j) * 1 else 0)%Qc in
  alg2_with 2 H' L' (np.zeros 3 3) = alg2_from 1 2 h lam (np.zeros 3 3).
Proof.
  intros h lam H' L'.
  apply (unread_parts_immaterial 1 2 h lam H' L' (np.zeros 3 3)).
  - apply is_matrix_mk.
  - apply is_matrix_mk.
  - split; [reflexivity | repeat constructor].
  - intros n i Hni. unfold H'. rewrite mk_matrix_total by lia.
    by rewrite decide_True by lia.
  - intros j k Hjk. unfold L'. rewrite mk_matrix_total by lia.
    by rewrite decide_True by lia.
Defined.

(** X8. Extending the horizon at the same step size does not change what
    was already computed: for [N ≤ N'] the working array for [N] is the
    top left block of the working array for [N'], and the result vector
    for [N] is the first [N + 1] entries of the result vector for [N']. *)
Theorem horizon_extension (Delta : Qc) (N N' : nat) (h lam : Qc → Qc → Qc) :
  N ≤ N' →
  ∃ F F' : np.matrix,
    algorithm1 Delta N h lam = Ok F ∧ algorithm2 Delta N h lam = Ok F
    ∧ algorithm1 Delta N' h lam = Ok F' ∧ algorithm2 Delta N' h lam = Ok F'
    ∧ np.slice2 0 (N + 1) 0 (N + 1) F' = F
    ∧ np.slice 0 (N + 1) (np.diagonal F') = np.diagonal F.
Proof.
  intros HN. do 2 eexists. rewrite !algorithm1_mk, !algorithm2_mk.
  do 4 (split; [done|]). split.
  - by rewrite (mk_matrix_slice2_dims _ _ _ _ _ _ (N + 1) (N + 1)) by lia.
  - rewrite !diagonal_mk by lia. rewrite mk_vector_slice.
    by replace ((N + 1) `min` ((N' + 1) `min` (N' + 1)) - 0)
      with ((N + 1) `min` (N + 1)) by lia.
Qed.

Lemma horizon_extension_witness :
  2 ≤ 4 ∧
  ∃ F F' : np.matrix,
    algorithm1 1 2 (λ t τ, t)%Qc (λ u τ, u + τ)%Qc = Ok F
    ∧ algorithm2 1 2 (λ t τ, t)%Qc (λ u τ, u + τ)%Qc = Ok F
    ∧ algorithm1 1 4 (λ t τ, t)%Qc (λ u τ, u + τ)%Qc = Ok F'
    ∧ algorithm2 1 4 (λ t τ, t)%Qc (λ u τ, u + τ)%Qc = Ok F'
    ∧ np.slice2 0 (2 + 1) 0 (2 + 1) F' = F
    ∧ np.slice 0 (2 + 1) (np.diagonal F') = np.diagonal F.
Proof.
  split; [lia|].
  apply (horizon_extension 1 2 4 (λ t τ, t)%Qc (λ u τ, u + τ)%Qc). lia.
Defined.

(** X9. Running either loop again on a finished working array changes
    nothing: the array returned by the algorithms is a fixed point of the
    double loop of Algorithm 1, over any rows, and of the cell of
    Algorithm 2. *)
Theorem rerun_idempotent (Delta : Qc) (N : nat) (h lam : Qc → Qc → Qc) :
  ∃ F : np.matrix,
    algorithm1 Delta N h lam = Ok F
    ∧ alg1_from Delta N h lam F = Ok F
    ∧ alg2_from Delta N h lam F = Ok F
    ∧ (∀ rows, Forall (λ n, n ≤ N) rows → alg1_rows Delta h lam rows F = Ok F).
Proof.
  eexists. split; [apply algorithm1_mk|].
  rewrite alg1_from_mk, alg2_from_mk.
  split; [|split].
  - f_equal. apply mk_matrix_ext. intros n i _ _. case_arith.
  - f_equal. apply mk_matrix_ext. intros n i _ _. case_arith.
  - intros rows Hrows. rewrite alg1_rows_mk.
    + f_equal. apply mk_matrix_ext. intros n i _ _. case_decide; [|done].
      by rewrite decide_True by tauto.
    + eapply Forall_impl; [exact Hrows|]. simpl. lia.
Qed.

(** X10. Loop invariant of Algorithm 2: after the first [j ≤ N] iterations,
    columns [0..j] of [F] hold their final values and every later column is
    still zero. *)
Theorem alg2_loop_invariant (Delta : Qc) (N j : nat) (h lam : Qc → Qc → Qc) :
  j ≤ N →
  ∃ (H L : np.matrix) (h0 : np.vector) (F0 Fj F : np.matrix),
    H_matrix Delta N h = Ok H ∧ L_matrix Delta N lam = Ok L
    ∧ np.slice_col 0 (N + 1) 0 H = Ok h0
    ∧ np.setitem_col (np.zeros (N + 1) (N + 1)) 0 (N + 1) 0 h0 = Ok F0
    ∧ for_each (alg2_step N H L) (np.range j) F0 = Ok Fj
    ∧ algorithm2 Delta N h lam = Ok F
    ∧ ∀ n c, n ≤ N → c ≤ N →
        np.entry Fj n c = if decide (c ≤ j) then np.entry F n c else 0%Qc.
Proof.
  intros Hj. do 6 eexists.
  split; [apply H_matrix_mk|]. split; [apply L_matrix_mk|].
  split; [by apply (slice_col_mk_dims _ _ _ _ _ (N + 1)); lia|].
  rewrite zeros_mk.
  split; [by apply (setitem_col_mk _ _ _ _ _ _ (N + 1)); lia|].
  split.
  - apply (alg2_loop_prefix Delta N h lam); [done|].
    intros n Hn. rewrite decide_True by lia. rewrite Nat.sub_0_r.
    apply H_column_0.
  - split; [apply algorithm2_mk|].
    intros n c Hn Hc. rewrite !mk_matrix_total by lia.
    destruct (decide (c = 0)) as [->|Hc0].
    + rewrite decide_False, !decide_True by lia.
      rewrite Nat.sub_0_r. apply H_column_0.
    + rewrite (decide_False (P := c = 0 ∧ _)) by lia. case_arith.
Qed.

Lemma alg2_loop_invariant_witness :
  1 ≤ 3 ∧
  ∃ (H L : np.matrix) (h0 : np.vector) (F0 Fj F : np.matrix),
    H_matrix 1 3 (λ t τ, t)%Qc = Ok H ∧ L_matrix 1 3 (λ u τ, u + τ)%Qc = Ok L
    ∧ np.slice_col 0 (3 + 1) 0 H = Ok h0
    ∧ np.setitem_col (np.zeros (3 + 1) (3 + 1)) 0 (3 + 1) 0 h0 = Ok F0
    ∧ for_each (alg2_step 3 H L) (np.range 1) F0 = Ok Fj
    ∧ algorithm2 1 3 (λ t τ, t)%Qc (λ u τ, u + τ)%Qc = Ok F
    ∧ ∀ n c, n ≤ 3 → c ≤ 3 →
        np.entry Fj n c = if decide (c ≤ 1) then np.entry F n c else 0%Qc.
Proof.
  split; [lia|].
  apply (alg2_loop_invariant 1 3 1 (λ t τ, t)%Qc (λ u τ, u + τ)%Qc). lia.
Defined.

(** X11. Loop invariant of Algorithm 1: after the first [m ≤ N + 1] rows,
    rows [0..m-1] of [fhat] hold their final values and every later row is
    still zero. *)
Theorem alg1_loop_invariant (Delta : Qc) (N m : nat) (h lam : Qc → Qc → Qc) :
  m ≤ N + 1 →
  ∃ Fm F : np.matrix,
    alg1_rows Delta h lam (np.range m) (np.zeros (N + 1) (N + 1)) = Ok Fm
    ∧ algorithm1 Delta N h lam = Ok F
    ∧ ∀ n i, n ≤ N → i ≤ N →
        np.entry Fm n i = if decide (n < m) then np.entry F n i else 0%Qc.
Proof.
  intros Hm. do 2 eexists. rewrite zeros_mk.
  split.
  - apply alg1_rows_mk. apply Forall_forall. intros n Hn%elem_of_seq. lia.
  - split; [apply algorithm1_mk|].
    intros n i Hn Hi. rewrite !mk_matrix_total by lia.
    destruct (decide (n < m)) as [Hlt|Hge].
    + assert (n ∈ np.range m) by (apply elem_of_seq; lia).
      repeat case_decide; try done; tauto.
    + rewrite decide_False; [done|]. intros [Hin%elem_of_seq _]. lia.
Qed.

Lemma alg1_loop_invariant_witness :
  2 ≤ 3 + 1 ∧
  ∃ Fm F : np.matrix,
    alg1_rows 1 (λ t τ, t)%Qc (λ u τ, u + τ)%Qc (np.range 2) (np.zeros (3 + 1) (3 + 1))
      = Ok Fm
    ∧ algorithm1 1 3 (λ t τ, t)%Qc (λ u τ, u + τ)%Qc = Ok F
    ∧ ∀ n i, n ≤ 3 → i ≤ 3 →
        np.entry Fm n i = if decide (n < 2) then np.entry F n i else 0%Qc.
Proof.
  split; [lia|].
  apply (alg1_loop_invariant 1 3 2 (λ t τ, t)%Qc (λ u τ, u + τ)%Qc). lia.
Defined.

(** ** How the result depends on the kernels *)

Lemma sum_mk_vector_linear a b m (f g : nat → Qc) :
  np.sum (np.mk_vector m (λ k, a * f k + b * g k)%Qc)
  = (a * np.sum (np.mk_vector m f) + b * np.sum (np.mk_vector m g))%Qc.
Proof.
  induction m as [|m IH]; [simpl; ring|].
  rewrite !mk_vector_S, !sum_app, IH. simpl. ring.
Qed.

Lemma sum_mk_vector_le m (f g : nat → Qc) :
  (∀ k, k < m → (f k ≤ g k)%Qc) →
  (np.sum (np.mk_vector m f) ≤ np.sum (np.mk_vector m g))%Qc.
Proof.
  induction m as [|m IH]; intros Hfg; [apply Qcle_refl|].
  rewrite !mk_vector_S, !sum_app. simpl. rewrite !Qcplus_0_r.
  apply Qcplus_le_compat; [apply IH; intros; apply Hfg; lia | apply Hfg; lia].
Qed.

Lemma sum_mk_vector_nonneg m (f : nat → Qc) :
  (∀ k, k < m → (0 ≤ f k)%Qc) → (0 ≤ np.sum (np.mk_vector m f))%Qc.
Proof.
  intros Hf. rewrite <-(sum_mk_vector_zero m (λ _, 0%Qc)) by done.
  by apply sum_mk_vector_le.
Qed.

Section kernel_dependence.
Variable Delta : Qc.
Variable lam : Qc → Qc → Qc.

Lemma fval_linear (h1 h2 : Qc → Qc → Qc) (a b : Qc) n i :
  fval Delta (λ t τ, a * h1 t τ + b * h2 t τ)%Qc lam n i
  = (a * fval Delta h1 lam n i + b * fval Delta h2 lam n i)%Qc.
Proof.
  induction i as [i IH] using lt_wf_ind.
  rewrite !(fval_eq _ _ _ n i). unfold cell_value.
  case_decide; [done|].
  rewrite (mk_vector_ext i _
    (λ k, a * (fval Delta h1 lam n (i - (1 + k))
               * lam (Delta * Qn (1 + k)) (Qn (n - i) * Delta) * Delta)
          + b * (fval Delta h2 lam n (i - (1 + k))
                 * lam (Delta * Qn (1 + k)) (Qn (n - i) * Delta) * Delta))%Qc).
  - rewrite sum_mk_vector_linear. ring.
  - intros k Hk. rewrite IH by lia. ring.
Qed.

Hypothesis Delta_nonneg : (0 ≤ Delta)%Qc.
Hypothesis lam_nonneg : ∀ u τ, (0 ≤ lam u τ)%Qc.

Lemma fval_monotone (h1 h2 : Qc → Qc → Qc) n i :
  (∀ t τ, (h1 t τ ≤ h2 t τ)%Qc) →
  (fval Delta h1 lam n i ≤ fval Delta h2 lam n i)%Qc.
Proof.
  intros Hh. induction i as [i IH] using lt_wf_ind.
  rewrite !(fval_eq _ _ _ n i). unfold cell_value.
  case_decide; [apply Hh|].
  apply Qcplus_le_compat; [apply Hh|].
  apply sum_mk_vector_le. intros k Hk.
  apply Qcmult_le_compat_r; [|done].
  apply Qcmult_le_compat_r; [|done].
  apply IH. lia.
Qed.

Lemma fval_lower_bound (h : Qc → Qc → Qc) n i :
  (∀ t τ, (0 ≤ h t τ)%Qc) →
  (0 ≤ fval Delta h lam n i)%Qc
  ∧ (h (Qn n * Delta) (Qn (n - i) * Delta) ≤ fval Delta h lam n i)%Qc.
Proof.
  intros Hh. induction i as [i IH] using lt_wf_ind.
  assert (h (Qn n * Delta) (Qn (n - i) * Delta) ≤ fval Delta h lam n i)%Qc as Hlow.
  { rewrite (fval_eq _ _ _ n i). unfold cell_value.
    case_decide as Hi; [subst i; rewrite Nat.sub_0_r; apply Qcle_refl|].
    rewrite <-(Qcplus_0_r (h _ _)) at 1.
    apply Qcplus_le_compat; [apply Qcle_refl|].
    apply sum_mk_vector_nonneg. intros k Hk.
    apply Qcmult_nonneg_nonneg; [|done].
    apply Qcmult_nonneg_nonneg; [|done].
    apply IH. lia. }
  split; [|done]. eapply Qcle_trans; [apply Hh | exact Hlow].
Qed.

End kernel_dependence.

Lemma step_nonneg T N : (0 ≤ T)%Qc → (0 ≤ T / Qn N)%Qc.
Proof.
  intros HT. destruct (decide (N = 0)) as [->|HN].
  - rewrite Qn_0. unfold Qcdiv.
    replace (/ 0)%Qc with 0%Qc by (by apply Qc_is_canon).
    rewrite Qcmult_0_r. apply Qcle_refl.
  - apply Qcmult_nonneg_nonneg; [done|].
    apply Qclt_le_weak, Qcinv_pos.
    rewrite <-Qn_0. apply Qn_lt. lia.
Qed.

(** X12. The solvers are linear in the forcing kernel: for
    [h = a·h1 + b·h2] and the same [λ], every entry of the result vector is
    [a] times the entry for [h1] plus [b] times the entry for [h2]. *)
Theorem result_linear_in_h (T : Qc) (N : nat) (h1 h2 lam : Qc → Qc → Qc) (a b : Qc) :
  1 ≤ N →
  ∃ v1 v2 v : np.vector,
    f_loop T N h1 lam = Ok v1 ∧ f_vec T N h1 lam = Ok v1
    ∧ f_loop T N h2 lam = Ok v2 ∧ f_vec T N h2 lam = Ok v2
    ∧ f_loop T N (λ t τ, a * h1 t τ + b * h2 t τ)%Qc lam = Ok v
    ∧ f_vec T N (λ t τ, a * h1 t τ + b * h2 t τ)%Qc lam = Ok v
    ∧ ∀ n, n ≤ N → v !!! n = (a * v1 !!! n + b * v2 !!! n)%Qc.
Proof.
  intros HN. do 3 eexists. rewrite !f_loop_mk, !f_vec_mk by done.
  do 6 (split; [done|]).
  intros n Hn. rewrite !mk_vector_total by lia. apply fval_linear.
Qed.

Lemma result_linear_in_h_witness :
  1 ≤ 2 ∧
  ∃ v1 v2 v : np.vector,
    f_loop 1 2 (λ t τ, t)%Qc (λ u τ, u)%Qc = Ok v1
    ∧ f_vec 1 2 (λ t τ, t)%Qc (λ u τ, u)%Qc = Ok v1
    ∧ f_loop 1 2 (λ t τ, τ)%Qc (λ u τ, u)%Qc = Ok v2
    ∧ f_vec 1 2 (λ t τ, τ)%Qc (λ u τ, u)%Qc = Ok v2
    ∧ f_loop 1 2 (λ t τ, 2 * (λ t τ, t) t τ + 1 * (λ t τ, τ) t τ)%Qc (λ u τ, u)%Qc = Ok v
    ∧ f_vec 1 2 (λ t τ, 2 * (λ t τ, t) t τ + 1 * (λ t τ, τ) t τ)%Qc (λ u τ, u)%Qc = Ok v
    ∧ ∀ n, n ≤ 2 → v !!! n = (2 * v1 !!! n + 1 * v2 !!! n)%Qc.
Proof.
  split; [lia|].
  apply (result_linear_in_h 1 2 (λ t τ, t)%Qc (λ t τ, τ)%Qc (λ u τ, u)%Qc 2 1). lia.
Defined.

(** X13. With a non-negative horizon and non-negative kernels no entry of
    the result vector is negative, and entry [n] is at least the forcing
    term [h(nΔ, 0)]. *)
Theorem result_nonneg (T : Qc) (N : nat) (h lam : Qc → Qc → Qc) :
  1 ≤ N → (0 ≤ T)%Qc →
  (∀ t τ, (0 ≤ h t τ)%Qc) → (∀ u τ, (0 ≤ lam u τ)%Qc) →
  ∃ v : np.vector,
    f_loop T N h lam = Ok v ∧ f_vec T N h lam = Ok v
    ∧ ∀ n, n ≤ N →
        (0 ≤ v !!! n)%Qc ∧ (h (Qn n * (T / Qn N)) 0 ≤ v !!! n)%Qc.
Proof.
  intros HN HT Hh Hlam. eexists. rewrite f_loop_mk, f_vec_mk by done.
  do 2 (split; [done|]).
  intros n Hn. rewrite !mk_vector_total by lia.
  pose proof (fval_lower_bound (T / Qn N) lam (step_nonneg T N HT) Hlam h n n Hh)
    as [H0 Hlow].
  split; [done|]. by rewrite Nat.sub_diag, Qn_0, Qcmult_0_l in Hlow.
Qed.

Lemma result_nonneg_witness :
  ∃ v : np.vector,
    f_loop 1 2 (λ t τ, 1)%Qc (λ u τ, 1)%Qc = Ok v
    ∧ f_vec 1 2 (λ t τ, 1)%Qc (λ u τ, 1)%Qc = Ok v
    ∧ ∀ n, n ≤ 2 →
        (0 ≤ v !!! n)%Qc ∧ ((λ t τ, 1) (Qn n * (1 / Qn 2)) 0 ≤ v !!! n)%Qc.
Proof.
  apply (result_nonneg 1 2 (λ t τ, 1)%Qc (λ u τ, 1)%Qc).
  - lia.
  - by vm_compute.
  - intros t τ. by vm_compute.
  - intros u τ. by vm_compute.
Defined.

(** X14. With a non-negative horizon and a non-negative hazard kernel the
    solvers are monotone in the forcing kernel: a pointwise larger [h] gives
    a result vector that is larger in every entry. *)
Theorem result_monotone_in_h (T : Qc) (N : nat) (h1 h2 lam : Qc → Qc → Qc) :
  1 ≤ N → (0 ≤ T)%Qc →
  (∀ u τ, (0 ≤ lam u τ)%Qc) → (∀ t τ, (h1 t τ ≤ h2 t τ)%Qc) →
  ∃ v1 v2 : np.vector,
    f_loop T N h1 lam = Ok v1 ∧ f_vec T N h1 lam = Ok v1
    ∧ f_loop T N h2 lam = Ok v2 ∧ f_vec T N h2 lam = Ok v2
    ∧ ∀ n, n ≤ N → (v1 !!! n ≤ v2 !!! n)%Qc.
Proof.
  intros HN HT Hlam Hh. do 2 eexists. rewrite !f_loop_mk, !f_vec_mk by done.
  do 4 (split; [done|]).
  intros n Hn. rewrite !mk_vector_total by lia.
  apply fval_monotone; [by apply step_nonneg|done|done].
Qed.

Lemma result_monotone_in_h_witness :
  ∃ v1 v2 : np.vector,
    f_loop 1 2 (λ t τ, 0)%Qc (λ u τ, 1)%Qc = Ok v1
    ∧ f_vec 1 2 (λ t τ, 0)%Qc (λ u τ, 1)%Qc = Ok v1
    ∧ f_loop 1 2 (λ t τ, 1)%Qc (λ u τ, 1)%Qc = Ok v2
    ∧ f_vec 1 2 (λ t τ, 1)%Qc (λ u τ, 1)%Qc = Ok v2
    ∧ ∀ n, n ≤ 2 → (v1 !!! n ≤ v2 !!! n)%Qc.
Proof.
  apply (result_monotone_in_h 1 2 (λ t τ, 0)%Qc (λ t τ, 1)%Qc (λ u τ, 1)%Qc).
  - lia.
  - by vm_compute.
  - intros u τ. by vm_compute.
  - intros t τ. by vm_compute.
Defined.

(** X15. With horizon [T = 0] the step is 0, every grid point is 0, and
    every entry of both result vectors is [h(0, 0)]. *)
Theorem zero_horizon (N : nat) (h lam : Qc → Qc → Qc) :
  1 ≤ N →
  step_size 0 N = Ok 0%Qc
  ∧ f_loop 0 N h lam = Ok (replicate (N + 1) (h 0 0)%Qc)
  ∧ f_vec 0 N h lam = Ok (replicate (N + 1) (h 0 0)%Qc).
Proof.
  intros HN.
  assert ((0 / Qn N)%Qc = 0%Qc) as E0 by apply Qcmult_0_l.
  assert (∀ n i, fval 0 h lam n i = h 0%Qc 0%Qc) as E.
  { intros n i. rewrite fval_eq. unfold cell_value. rewrite !Qcmult_0_r.
    case_decide; [done|].
    rewrite sum_mk_vector_zero; [ring|]. intros k _. ring. }
  assert (np.mk_vector (N + 1) (λ n, fval 0 h lam n n)
          = replicate (N + 1) (h 0 0)%Qc) as Ev.
  { apply list_eq. intros k. rewrite mk_vector_lookup. case_decide.
    - by rewrite lookup_replicate_2, E.
    - apply eq_sym, lookup_replicate_None. lia. }
  split.
  - unfold step_size. rewrite decide_False by lia. by rewrite E0.
  - rewrite f_loop_mk, f_vec_mk by done. by rewrite E0, Ev.
Qed.

Lemma zero_horizon_witness :
  1 ≤ 3 ∧
  step_size 0 3 = Ok 0%Qc
  ∧ f_loop 0 3 (λ t τ, t + τ + 1)%Qc (λ u τ, u + 1)%Qc
    = Ok (replicate (3 + 1) ((λ t τ, t + τ + 1) 0 0)%Qc)
  ∧ f_vec 0 3 (λ t τ, t + τ + 1)%Qc (λ u τ, u + 1)%Qc
    = Ok (replicate (3 + 1) ((λ t τ, t + τ + 1) 0 0)%Qc).
Proof.
  split; [lia|]. apply (zero_horizon 3 (λ t τ, t + τ + 1)%Qc (λ u τ, u + 1)%Qc). lia.
Defined.

(** ** The kernels of the notebook *)

Lemma hundredth_hundred : (Qn 100 * Q2Qc (1 # 100))%Qc = 1%Qc.
Proof. by apply Qc_is_canon. Qed.

Lemma gamma_scale_zero_iff tau :
  (1 + Q2Qc (1 # 100) * tau)%Qc = 0%Qc ↔ tau = (- Qn 100)%Qc.
Proof.
  split.
  - intros E.
    replace tau with (Qn 100 * Q2Qc (1 # 100) * tau)%Qc
      by (rewrite hundredth_hundred; ring).
    replace (Qn 100 * Q2Qc (1 # 100) * tau)%Qc
      with (Qn 100 * ((1 + Q2Qc (1 # 100) * tau) - 1))%Qc by ring.
    rewrite E. ring.
  - intros ->.
    replace (1 + Q2Qc (1 # 100) * - Qn 100)%Qc
      with (1 - Qn 100 * Q2Qc (1 # 100))%Qc by ring.
    rewrite hundredth_hundred. ring.
Qed.

Lemma gamma_scale_pos tau :
  (0 ≤ tau)%Qc → (0 < 1 + Q2Qc (1 # 100) * tau)%Qc.
Proof.
  intros Htau. apply Qcplus_pos_nonneg; [done|].
  by apply Qcmult_nonneg_nonneg.
Qed.

Section kernel_facts.
Variables gamma_cdf gamma_pdf : Qc → Qc → Qc → Qc.
Variable np_sin : Qc → Qc.

Lemma kernels_defined t tau :
  (1 + Q2Qc (1 # 100) * tau)%Qc ≠ 0%Qc →
  h_kernel gamma_cdf t tau = Ok (h_value gamma_cdf t tau)
  ∧ lam_kernel gamma_pdf np_sin t tau = Ok (lam_value gamma_pdf np_sin t tau).
Proof.
  intros Hd. unfold h_kernel, lam_kernel, G, g, gamma_scale.
  cbv zeta. by rewrite !decide_False by done.
Qed.

Lemma kernels_undefined t tau :
  (1 + Q2Qc (1 # 100) * tau)%Qc = 0%Qc →
  h_kernel gamma_cdf t tau = Raise ZeroDivisionError
  ∧ lam_kernel gamma_pdf np_sin t tau = Raise ZeroDivisionError.
Proof.
  intros Hd. unfold h_kernel, lam_kernel, G, g, gamma_scale.
  cbv zeta. by rewrite !decide_True by done.
Qed.

Lemma R_bounds t :
  (∀ x, (- 1 ≤ np_sin x)%Qc ∧ (np_sin x ≤ 1)%Qc) →
  (Q2Qc (15 # 100) ≤ R np_sin t)%Qc ∧ (R np_sin t ≤ Q2Qc (215 # 100))%Qc.
Proof.
  intros Hsin. unfold R.
  destruct (Hsin (Q2Qc (15 # 100) * t)%Qc) as [Hlo Hhi]. split.
  - replace (Q2Qc (15 # 100)) with (Q2Qc (115 # 100) + - 1)%Qc at 1
      by (by apply Qc_is_canon).
    by apply Qcplus_le_compat; [apply Qcle_refl|].
  - replace (Q2Qc (215 # 100)) with (Q2Qc (115 # 100) + 1)%Qc
      by (by apply Qc_is_canon).
    by apply Qcplus_le_compat; [apply Qcle_refl|].
Qed.

Lemma h_value_bounds t tau :
  (∀ x a s, (0 ≤ gamma_cdf x a s)%Qc ∧ (gamma_cdf x a s ≤ 1)%Qc) →
  (0 ≤ h_value gamma_cdf t tau)%Qc ∧ (h_value gamma_cdf t tau ≤ 1)%Qc.
Proof.
  intros Hcdf. unfold h_value.
  destruct (Hcdf (t - tau)%Qc gamma_shape (1 / (1 + Q2Qc (1 # 100) * tau))%Qc)
    as [Hlo Hhi].
  split.
  - by apply Qcle_minus_iff in Hhi.
  - apply Qcle_minus_iff.
    by replace (1 + - (1 - gamma_cdf (t - tau) gamma_shape
                             (1 / (1 + Q2Qc (1 # 100) * tau))))%Qc
      with (gamma_cdf (t - tau) gamma_shape (1 / (1 + Q2Qc (1 # 100) * tau)))%Qc
      by ring.
Qed.

Lemma lam_value_nonneg u tau :
  (∀ x a s, (0 ≤ gamma_pdf x a s)%Qc) →
  (∀ x, (- 1 ≤ np_sin x)%Qc ∧ (np_sin x ≤ 1)%Qc) →
  (0 ≤ lam_value gamma_pdf np_sin u tau)%Qc.
Proof.
  intros Hpdf Hsin. unfold lam_value.
  apply Qcmult_nonneg_nonneg; [|apply Hpdf].
  eapply Qcle_trans; [|apply (R_bounds _ Hsin)]. done.
Qed.

End kernel_facts.

(** X16. Called with Python floats, the kernels [h] and [lam] of the
    notebook raise [ZeroDivisionError] exactly at [tau = -100], where the
    scale [1 / (1 + 0.01 * tau)] divides by zero; at every other [tau] they
    return, and in particular at every lag [k * Delta] of a grid with
    [Delta ≥ 0]. *)
Theorem kernels_division_by_zero
    (gamma_cdf gamma_pdf : Qc → Qc → Qc → Qc) (np_sin : Qc → Qc) (t tau : Qc) :
  (tau = (- Qn 100)%Qc →
     h_kernel gamma_cdf t tau = Raise ZeroDivisionError
     ∧ lam_kernel gamma_pdf np_sin t tau = Raise ZeroDivisionError)
  ∧ (tau ≠ (- Qn 100)%Qc →
       h_kernel gamma_cdf t tau = Ok (h_value gamma_cdf t tau)
       ∧ lam_kernel gamma_pdf np_sin t tau = Ok (lam_value gamma_pdf np_sin t tau))
  ∧ (∀ (Delta : Qc) (k : nat), (0 ≤ Delta)%Qc →
       h_kernel gamma_cdf t (Qn k * Delta)
       = Ok (h_value gamma_cdf t (Qn k * Delta))
       ∧ lam_kernel gamma_pdf np_sin t (Qn k * Delta)
         = Ok (lam_value gamma_pdf np_sin t (Qn k * Delta))).
Proof.
  split; [|split].
  - intros E. apply kernels_undefined. by apply gamma_scale_zero_iff.
  - intros E. apply kernels_defined. by rewrite gamma_scale_zero_iff.
  - intros Delta k HD. apply kernels_defined.
    apply not_symmetry, Qclt_not_eq, gamma_scale_pos.
    apply Qcmult_nonneg_nonneg; [apply Qn_nonneg | done].
Qed.

(** X17. Under the contracts of the library functions (a distribution
    function with values in [[0, 1]], a non-negative density, a sine within
    [[-1, 1]]) the forcing kernel lies in [[0, 1]], the reproduction number
    in [[0.15, 2.15]], and the hazard kernel is non-negative. *)
Theorem kernel_bounds
    (gamma_cdf gamma_pdf : Qc → Qc → Qc → Qc) (np_sin : Qc → Qc) :
  (∀ x a s, (0 ≤ gamma_cdf x a s)%Qc ∧ (gamma_cdf x a s ≤ 1)%Qc) →
  (∀ x a s, (0 ≤ gamma_pdf x a s)%Qc) →
  (∀ x, (- 1 ≤ np_sin x)%Qc ∧ (np_sin x ≤ 1)%Qc) →
  ∀ t tau,
    ((0 ≤ h_value gamma_cdf t tau)%Qc ∧ (h_value gamma_cdf t tau ≤ 1)%Qc)
    ∧ ((Q2Qc (15 # 100) ≤ R np_sin t)%Qc ∧ (R np_sin t ≤ Q2Qc (215 # 100))%Qc)
    ∧ (0 ≤ lam_value gamma_pdf np_sin t tau)%Qc.
Proof.
  intros Hcdf Hpdf Hsin t tau.
  split; [by apply h_value_bounds|].
  split; [by apply R_bounds|]. by apply lam_value_nonneg.
Qed.

Lemma kernel_bounds_witness :
  let cdf := (λ x a s : Qc, Q2Qc (1 # 2)) in
  let pdf := (λ x a s : Qc, 1%Qc) in
  let sin := (λ x : Qc, 0%Qc) in
  ((0 ≤ h_value cdf 2 1)%Qc ∧ (h_value cdf 2 1 ≤ 1)%Qc)
  ∧ ((Q2Qc (15 # 100) ≤ R sin 2)%Qc ∧ (R sin 2 ≤ Q2Qc (215 # 100))%Qc)
  ∧ (0 ≤ lam_value pdf sin 2 1)%Qc.
Proof.
  intros cdf pdf sin.
  refine (kernel_bounds cdf pdf sin _ _ _ 2%Qc 1%Qc).
  - intros x a s. split; by vm_compute.
  - intros x a s. by vm_compute.
  - intros x. split; by vm_compute.
Defined.

(** X18. For the kernels of the notebook, under the same contracts and
    for [T ≥ 0], [N ≥ 1]: both solvers return the same result vector, no
    entry of it is negative, and its first entry is
    [1 - gamma.cdf(0, a = 3, scale = 1)]. *)
Theorem prevalence_nonneg
    (gamma_cdf gamma_pdf : Qc → Qc → Qc → Qc) (np_sin : Qc → Qc)
    (T : Qc) (N : nat) :
  1 ≤ N → (0 ≤ T)%Qc →
  (∀ x a s, (0 ≤ gamma_cdf x a s)%Qc ∧ (gamma_cdf x a s ≤ 1)%Qc) →
  (∀ x a s, (0 ≤ gamma_pdf x a s)%Qc) →
  (∀ x, (- 1 ≤ np_sin x)%Qc ∧ (np_sin x ≤ 1)%Qc) →
  ∃ v : np.vector,
    f_loop T N (h_value gamma_cdf) (lam_value gamma_pdf np_sin) = Ok v
    ∧ f_vec T N (h_value gamma_cdf) (lam_value gamma_pdf np_sin) = Ok v
    ∧ (∀ n, n ≤ N → (0 ≤ v !!! n)%Qc)
    ∧ v !! 0 = Some (1 - gamma_cdf 0 gamma_shape 1)%Qc.
Proof.
  intros HN HT Hcdf Hpdf Hsin. eexists. rewrite f_loop_mk, f_vec_mk by done.
  do 2 (split; [done|]). split.
  - intros n Hn. rewrite mk_vector_total by lia.
    apply fval_lower_bound.
    + by apply step_nonneg.
    + intros u τ. by apply lam_value_nonneg.
    + intros t τ. by apply h_value_bounds.
  - rewrite mk_vector_lookup, decide_True by lia.
    rewrite fval_0, Qn_0, !Qcmult_0_l. unfold h_value.
    replace (0 - 0)%Qc with 0%Qc by ring.
    by replace (1 / (1 + Q2Qc (1 # 100) * 0))%Qc with 1%Qc by (by apply Qc_is_canon).
Qed.

Lemma prevalence_nonneg_witness :
  let cdf := (λ x a s : Qc, 0%Qc) in
  let pdf := (λ x a s : Qc, 1%Qc) in
  let sin := (λ x : Qc, 0%Qc) in
  ∃ v : np.vector,
    f_loop (Qn 100) 4 (h_value cdf) (lam_value pdf sin) = Ok v
    ∧ f_vec (Qn 100) 4 (h_value cdf) (lam_value pdf sin) = Ok v
    ∧ (∀ n, n ≤ 4 → (0 ≤ v !!! n)%Qc)
    ∧ v !! 0 = Some (1 - cdf 0 gamma_shape 1)%Qc.
Proof.
  intros cdf pdf sin.
  apply (prevalence_nonneg cdf pdf sin (Qn 100) 4).
  - lia.
  - by vm_compute.
  - intros x a s. split; by vm_compute.
  - intros x a s. by vm_compute.
  - intros x. split; by vm_compute.
Defined.

(** ** Further facts about the result vectors *)

(** X19. The grid and the two result vectors are parallel arrays: for
    [N ≥ 1] all three have the same length [N + 1], as plotting one against
    the other needs. *)
Theorem plot_arrays_parallel (T : Qc) (N : nat) (h lam : Qc → Qc → Qc) :
  1 ≤ N →
  ∃ (Delta : Qc) (v_loop v_vec : np.vector),
    step_size T N = Ok Delta
    ∧ f_loop T N h lam = Ok v_loop ∧ f_vec T N h lam = Ok v_vec
    ∧ length (grid Delta N) = length v_loop
    ∧ length (grid Delta N) = length v_vec.
Proof.
  intros HN. do 3 eexists. unfold step_size. rewrite decide_False by lia.
  rewrite f_loop_mk, f_vec_mk by done.
  do 3 (split; [done|]). by rewrite grid_mk, !mk_vector_length.
Qed.

Lemma plot_arrays_parallel_witness :
  1 ≤ 5 ∧
  ∃ (Delta : Qc) (v_loop v_vec : np.vector),
    step_size (Qn 100) 5 = Ok Delta
    ∧ f_loop (Qn 100) 5 (λ t τ, t)%Qc (λ u τ, u)%Qc = Ok v_loop
    ∧ f_vec (Qn 100) 5 (λ t τ, t)%Qc (λ u τ, u)%Qc = Ok v_vec
    ∧ length (grid Delta 5) = length v_loop
    ∧ length (grid Delta 5) = length v_vec.
Proof.
  split; [lia|].
  apply (plot_arrays_parallel (Qn 100) 5 (λ t τ, t)%Qc (λ u τ, u)%Qc). lia.
Defined.

(** X20. The solvers themselves accept a step count of 0: the grid is the
    single point 0, [L] is empty, and both working arrays are the
    [1 × 1] array holding [h(0, 0)].  (Only the division [T / N] fails for
    [N = 0].) *)
Theorem zero_steps (Delta : Qc) (h lam : Qc → Qc → Qc) :
  grid Delta 0 = [0%Qc]
  ∧ L_matrix Delta 0 lam = Ok []
  ∧ algorithm1 Delta 0 h lam = Ok [[h 0 0]]%Qc
  ∧ algorithm2 Delta 0 h lam = Ok [[h 0 0]]%Qc.
Proof.
  assert (fval Delta h lam 0 0 = h 0%Qc 0%Qc) as E.
  { by rewrite fval_0, Qn_0, Qcmult_0_l. }
  split; [|split; [|split]].
  - rewrite grid_mk. unfold np.mk_vector. simpl. by rewrite Qn_0, Qcmult_0_r.
  - by rewrite L_matrix_mk.
  - rewrite algorithm1_mk. unfold np.mk_matrix, np.mk_vector. simpl.
    by rewrite E.
  - rewrite algorithm2_mk. unfold np.mk_matrix, np.mk_vector. simpl.
    by rewrite E.
Qed.

Lemma fval_ext Delta (h1 h2 lam1 lam2 : Qc → Qc → Qc) N n i :
  (∀ n i, i ≤ n ≤ N →
     h1 (Qn n * Delta)%Qc (Qn (n - i) * Delta)%Qc
     = h2 (Qn n * Delta)%Qc (Qn (n - i) * Delta)%Qc) →
  (∀ n i k, i ≤ n ≤ N → 1 ≤ k ≤ i →
     lam1 (Delta * Qn k)%Qc (Qn (n - i) * Delta)%Qc
     = lam2 (Delta * Qn k)%Qc (Qn (n - i) * Delta)%Qc) →
  i ≤ n ≤ N →
  fval Delta h1 lam1 n i = fval Delta h2 lam2 n i.
Proof.
  intros Hh Hlam. induction i as [i IH] using lt_wf_ind. intros Hin.
  rewrite !(fval_eq _ _ _ n i). unfold cell_value.
  case_decide as Hi.
  - subst i. rewrite <-(Nat.sub_0_r n) at 2 4. apply Hh. lia.
  - rewrite Hh by lia. f_equal. f_equal.
    apply mk_vector_ext. intros k Hk.
    rewrite IH by lia. by rewrite Hlam by lia.
Qed.

(** X21. The result depends on the kernels only through their values at
    grid points with non-negative lag: [h] at [(nΔ, (n-i)Δ)] and [lam] at
    [(kΔ, (n-i)Δ)] for [1 ≤ k ≤ i ≤ n ≤ N].  Two pairs of kernels that agree
    there give the same result vectors, from both solvers. *)
Theorem kernels_read_on_grid (T : Qc) (N : nat) (h1 h2 lam1 lam2 : Qc → Qc → Qc) :
  1 ≤ N →
  (∀ n i, i ≤ n ≤ N →
     h1 (Qn n * (T / Qn N))%Qc (Qn (n - i) * (T / Qn N))%Qc
     = h2 (Qn n * (T / Qn N))%Qc (Qn (n - i) * (T / Qn N))%Qc) →
  (∀ n i k, i ≤ n ≤ N → 1 ≤ k ≤ i →
     lam1 (T / Qn N * Qn k)%Qc (Qn (n - i) * (T / Qn N))%Qc
     = lam2 (T / Qn N * Qn k)%Qc (Qn (n - i) * (T / Qn N))%Qc) →
  f_loop T N h1 lam1 = f_loop T N h2 lam2
  ∧ f_vec T N h1 lam1 = f_vec T N h2 lam2
  ∧ f_loop T N h1 lam1 = f_vec T N h2 lam2.
Proof.
  intros HN Hh Hlam. rewrite !f_loop_mk, !f_vec_mk by done.
  assert (np.mk_vector (N + 1) (λ n, fval (T / Qn N) h1 lam1 n n)
          = np.mk_vector (N + 1) (λ n, fval (T / Qn N) h2 lam2 n n)) as ->; [|done].
  apply mk_vector_ext. intros n Hn. apply (fval_ext _ _ _ _ _ N); [done|done|lia].
Qed.

Lemma kernels_read_on_grid_witness :
  let h1 := (λ t τ : Qc, t + τ)%Qc in
  let h2 := (λ t τ : Qc, if decide (0 ≤ τ)%Qc then t + τ else 0)%Qc in
  let lam := (λ u τ : Qc, u)%Qc in
  f_loop 1 2 h1 lam = f_loop 1 2 h2 lam
  ∧ f_vec 1 2 h1 lam = f_vec 1 2 h2 lam
  ∧ f_loop 1 2 h1 lam = f_vec 1 2 h2 lam.
Proof.
  intros h1 h2 lam.
  apply (kernels_read_on_grid 1 2 h1 h2 lam lam).
  - lia.
  - intros n i Hni. unfold h1, h2. rewrite decide_True; [done|].
    apply Qcmult_nonneg_nonneg; [apply Qn_nonneg | by vm_compute].
  - done.
Defined.

(** ** The configuration *)


